(** * SubSaver: the subscription detector and the opportunity analyzer

    A shallow embedding of [models/pattern_detector.py]
    ([SubscriptionDetector]) and of [savings_opportunities] in
    [utils/visualizer.py], with the properties of the detection pipeline;
    and of the lookups of [services/cancellation.py], the column names of
    [parsers/csv_parser.py] and the account numbers of
    [utils/anonymizer.py].

    Modelling choices.
    - A pandas DataFrame is a list of rows, in row order; the index labels
      are not modelled (no function below reads them).
    - A Python [str] is a Rocq [string], read as a sequence of code points
      below 256.
    - A float ([amount], [monthly_cost], the mean gap) is a rational [Qc].
      The arithmetic of the detector is exact: its tests compare with
      integers the mean gap, a quotient of integers, and its distance to a
      gap, and rounding does not change their outcome (gaps and row counts
      are far below 2^53). The products of the opportunity analyzer are
      rounded as doubles ([binary64]): its threshold test and the text it
      prints depend on the rounding. Infinities and NaN are not modelled.
    - A pandas [Timestamp] is an integer count of nanoseconds; the [days]
      of a difference is its floor division by one day. The missing date
      [NaT] is not modelled.
    - [sort_values] keeps the order of rows of equal date; pandas leaves
      that order open, and no property depends on it.
    - [pd.to_datetime] is a parameter of [detect_subscriptions]: what it
      makes of each text of the [date] column.
    - A Python exception is an explicit [Raise] result.
    - A cell of the [account] column is text, an integer or missing; a
      float that is a number is not modelled. *)

From Stdlib Require Import List String Ascii Bool ZArith QArith Qcanon Qround Qpower.
From Stdlib Require Qcabs.
From Stdlib Require Import Lia Lqa Permutation Sorted DecimalString.
From Stdlib Require OrderedTypeEx.
Import ListNotations.

Local Open Scope string_scope.
Local Open Scope Z_scope.

(** ** Exceptions *)

Inductive Exception : Type :=
| ZeroDivisionError
| IndexError
| ValueError.

Inductive Result (A : Type) : Type :=
| Ok (a : A)
| Raise (e : Exception).

Arguments Ok {A} a.
Arguments Raise {A} e.

Definition bind {A B : Type} (m : Result A) (k : A -> Result B) : Result B :=
  match m with
  | Ok a => k a
  | Raise e => Raise e
  end.

Notation "x <- m ;; k" := (bind m (fun x => k))
  (at level 61, m at next level, right associativity).

(** A [for] loop that appends one row per item: the first exception ends it. *)
Fixpoint for_each {A B : Type} (body : A -> Result B) (l : list A) : Result (list B) :=
  match l with
  | [] => Ok []
  | x :: l' =>
      y <- body x ;;
      ys <- for_each body l' ;;
      Ok (y :: ys)
  end.

(** ** Python strings *)

(** [str.lower] on one code point below 256: the ASCII capitals and the
    Latin-1 capitals (U+00C0 to U+00DE, the multiplication sign apart). *)
Definition lower_char (c : ascii) : ascii :=
  let n := N_of_ascii c in
  if ((65 <=? n) && (n <=? 90))%N then ascii_of_N (n + 32)
  else if ((192 <=? n) && (n <=? 222) && negb (n =? 215))%N then ascii_of_N (n + 32)
  else c.

Fixpoint lower (s : string) : string :=
  match s with
  | EmptyString => EmptyString
  | String c s' => String (lower_char c) (lower s')
  end.

(** [kw in s]: [kw] occurs in [s] as a contiguous substring. *)
Fixpoint contains (kw s : string) : bool :=
  String.prefix kw s ||
  match s with
  | EmptyString => false
  | String _ s' => contains kw s'
  end.

(** [any(p(x) for x in l)] *)
Definition any {A : Type} (p : A -> bool) (l : list A) : bool := existsb p l.

(** [str(n)] for an integer. *)
Definition str_of_int (n : Z) : string := NilZero.string_of_int (Z.to_int n).

(** ** Python numbers *)

Definition Qc_eqb (x y : Qc) : bool := Qeq_bool x y.
Definition Qc_leb (x y : Qc) : bool := Qle_bool x y.
Definition Qc_ltb (x y : Qc) : bool := negb (Qle_bool y x).

Definition of_int (n : Z) : Qc := Q2Qc (inject_Z n).

(** [a / b] on Python floats: division by zero raises. *)
Definition truediv (a b : Qc) : Result Qc :=
  if Qc_eqb b (of_int 0) then Raise ZeroDivisionError else Ok (a / b)%Qc.

(** [round(x)]: to the nearest integer, a tie to the even one. *)
Definition round (x : Qc) : Z :=
  let f := Qfloor x in
  match Qcompare (x - inject_Z f) (1 # 2) with
  | Lt => f
  | Gt => f + 1
  | Eq => if Z.even f then f else f + 1
  end.

(** [sum(l)] for integers. *)
Definition py_sum (l : list Z) : Z := fold_left Z.add l 0.

(** ** Timestamps *)

(** A date that is present, in nanoseconds. The missing date [NaT], which
    [pd.to_datetime] makes of a blank cell, is not modelled: the tables
    below have a date in every row. *)
Definition Timestamp : Type := Z.

Definition ns_per_day : Z := 86400000000000.

(** [(b - a).days] *)
Definition days_between (a b : Timestamp) : Z := (b - a) / ns_per_day.

(** ** DataFrame operations *)

(** [l.iloc[0]] and [l.iloc[-1]] *)
Definition iloc_first {A : Type} (l : list A) : Result A :=
  match l with
  | [] => Raise IndexError
  | x :: _ => Ok x
  end.

Fixpoint iloc_last {A : Type} (l : list A) : Result A :=
  match l with
  | [] => Raise IndexError
  | [x] => Ok x
  | _ :: l' => iloc_last l'
  end.

Section Sorting.
Context {A : Type}.
Variable leb : A -> A -> bool.

Fixpoint insert_sorted (x : A) (l : list A) : list A :=
  match l with
  | [] => [x]
  | y :: l' => if leb x y then x :: y :: l' else y :: insert_sorted x l'
  end.

(** Ascending, rows that compare equal keep their order. *)
Definition sort_by (l : list A) : list A := fold_right insert_sorted [] l.
End Sorting.

Section Grouping.
Context {A K : Type}.
Variable eqb : K -> K -> bool.
Variable leb : K -> K -> bool.
Variable key : A -> K.

(** The distinct values, each at its first occurrence. *)
Fixpoint unique (l : list K) : list K :=
  match l with
  | [] => []
  | k :: l' => k :: filter (fun k' => negb (eqb k k')) (unique l')
  end.

Definition has_key (k : K) (r : A) : bool := eqb (key r) k.

(** [df.groupby(key)]: the groups in ascending key order, each with its
    rows in table order. *)
Definition groupby (df : list A) : list (K * list A) :=
  map (fun k => (k, filter (has_key k) df)) (sort_by leb (unique (map key df))).
End Grouping.

(** ** The data model *)

Record Transaction : Type := mkTransaction {
  date : Timestamp;
  description : string;
  amount : Qc
}.

(** A candidate row once [detect_subscriptions] has added the [category]
    column. *)
Record Candidate : Type := mkCandidate {
  row : Transaction;
  category : string
}.

(** A row of the table [_calculate_monthly_cost] returns: the candidate row
    it copies and the three columns it adds. *)
Record Subscription : Type := mkSubscription {
  base : Candidate;
  monthly_cost : Qc;
  frequency : string;
  last_charge : Timestamp
}.

Definition transaction_eqb (a b : Transaction) : bool :=
  (date a =? date b) && (description a =? description b)%string
  && Qc_eqb (amount a) (amount b).

(** [df.drop_duplicates()]: whole rows compared, the first of each kept. *)
Definition drop_duplicates (df : list Transaction) : list Transaction :=
  unique transaction_eqb df.

(** [df.sort_values('date')]: ascending by date. pandas sorts with an
    unstable quicksort, so the order of the rows of one date is open; here
    they keep their table order. No property below says which of the rows
    of one date comes first or last. *)
Definition sort_values {A : Type} (date_of : A -> Timestamp) (df : list A) : list A :=
  sort_by (fun a b => date_of a <=? date_of b) df.

(** [[(dates[i+1] - dates[i]).days for i in range(len(dates)-1)]] *)
Fixpoint intervals (dates : list Timestamp) : list Z :=
  match dates with
  | a :: (b :: _) as rest => days_between a b :: intervals rest
  | _ => []
  end.

(** [sum(intervals) / len(intervals)] *)
Definition mean (ints : list Z) : Result Qc :=
  truediv (of_int (py_sum ints)) (of_int (Z.of_nat (List.length ints))).

(** [lo <= x <= hi] *)
Definition between (lo : Z) (x : Qc) (hi : Z) : bool :=
  Qc_leb (of_int lo) x && Qc_leb x (of_int hi).

(** [series.max()] of a column that has a row. *)
Definition series_max (l : list Timestamp) : Result Timestamp :=
  match l with
  | [] => Raise ValueError
  | d :: l' => Ok (fold_left Z.max l' d)
  end.

(** ** SubscriptionDetector *)

Definition subscription_keywords : list string :=
  [ "subscription"; "member"; "monthly"; "annual"; "recurring";
    "netflix"; "spotify"; "hulu"; "disney+"; "amazon prime";
    "apple"; "google"; "microsoft"; "adobe"; "dropbox"; "icloud";
    "hbo"; "youtube"; "paramount"; "peacock"; "crunchyroll";
    "gym"; "fitness"; "audible"; "patreon"; "onlyfans";
    "vpn"; "domain"; "hosting"; "website"; "cloud" ].

(** The dict keeps its insertion order. *)
Definition categories : list (string * list string) :=
  [ ("streaming", ["netflix"; "hulu"; "disney+"; "hbo"; "paramount+"; "peacock"; "youtube premium"]);
    ("music", ["spotify"; "apple music"; "tidal"; "pandora"; "deezer"]);
    ("cloud", ["dropbox"; "google one"; "icloud"; "onedrive"; "box"]);
    ("software", ["adobe"; "microsoft"; "autodesk"; "notion"; "canva pro"]);
    ("gaming", ["xbox"; "playstation"; "nintendo"; "steam"; "epic games"]);
    ("fitness", ["gym"; "peloton"; "fitness"; "strava"; "beachbody"]);
    ("news", ["nyt"; "wsj"; "washington post"; "economist"; "new yorker"]);
    ("other", []) ].

Definition _find_keyword_matches (df : list Transaction) : list Transaction :=
  filter (fun t =>
            let x := lower (description t) in
            any (fun keyword => contains keyword (lower x)) subscription_keywords)
         df.

Definition pair_eqb (a b : string * Qc) : bool :=
  (fst a =? fst b)%string && Qc_eqb (snd a) (snd b).

(** Keys of a two-column grouping are ordered column by column. *)
Definition pair_leb (a b : string * Qc) : bool :=
  match String.compare (fst a) (fst b) with
  | Lt => true
  | Eq => Qc_leb (snd a) (snd b)
  | Gt => false
  end.

(** One turn of the loop of [_find_recurring_patterns]: the rows it appends
    to [recurring]. *)
Definition recurring_rows (group : list Transaction) : Result (list Transaction) :=
  if (2 <=? List.length group)%nat then
    let sorted_group := sort_values date group in
    let dates := map date sorted_group in
    let ints := intervals dates in
    if (1 <=? List.length ints)%nat then
      avg_interval <- mean ints ;;
      let is_consistent :=
        forallb (fun interval => Qc_leb (Qcabs.Qcabs (of_int interval - avg_interval)) (of_int 5)) ints in
      let is_subscription_period :=
        between 25 avg_interval 35 || between 350 avg_interval 380 in
      if is_consistent && is_subscription_period then
        first <- iloc_first sorted_group ;;
        Ok [first]
      else Ok []
    else Ok []
  else Ok [].

Definition _find_recurring_patterns (df : list Transaction) : Result (list Transaction) :=
  let grouped := groupby pair_eqb pair_leb (fun t => (description t, amount t)) df in
  recurring <- for_each (fun g => recurring_rows (snd g)) grouped ;;
  Ok (List.concat recurring).

Fixpoint first_category (cats : list (string * list string)) (description : string)
  : option string :=
  match cats with
  | [] => None
  | (category, keywords) :: cats' =>
      if any (fun keyword => contains keyword description) keywords
      then Some category
      else first_category cats' description
  end.

Definition _categorize_subscription (description : string) : string :=
  let description := lower description in
  match first_category categories description with
  | Some category => category
  | None => "other"
  end.

Definition cand_date (c : Candidate) : Timestamp := date (row c).
Definition cand_description (c : Candidate) : string := description (row c).

(** The rows of a group seen once: the [else] branches of the loop of
    [_calculate_monthly_cost]. *)
Definition single_occurrence (group : list Candidate) : Result Subscription :=
  r <- iloc_first group ;;
  Ok {| base := r;
        monthly_cost := amount (row r);
        frequency := "unknown";
        last_charge := date (row r) |}.

(** One turn of the loop of [_calculate_monthly_cost]: the row it appends to
    [results]. *)
Definition subscription_row (group : list Candidate) : Result Subscription :=
  if (2 <=? List.length group)%nat then
    let sorted_group := sort_values cand_date group in
    let dates := map cand_date sorted_group in
    if (2 <=? List.length dates)%nat then
      let ints := intervals dates in
      avg_interval <- mean ints ;;
      last <- iloc_last sorted_group ;;
      let amount := amount (row last) in
      cf <- (if between 25 avg_interval 35 then
               Ok (amount, "monthly")
             else if between 350 avg_interval 380 then
               Ok ((amount / of_int 12)%Qc, "annual")
             else
               per_day <- truediv (of_int 30) avg_interval ;;
               Ok ((amount * per_day)%Qc,
                   "every " ++ str_of_int (round avg_interval) ++ " days")) ;;
      r <- iloc_last sorted_group ;;
      latest <- series_max dates ;;
      Ok {| base := r;
            monthly_cost := fst cf;
            frequency := snd cf;
            last_charge := latest |}
    else single_occurrence group
  else single_occurrence group.

Definition _calculate_monthly_cost (subscriptions_df : list Candidate)
  : Result (list Subscription) :=
  let grouped := groupby String.eqb String.leb cand_description subscriptions_df in
  for_each (fun g => subscription_row (snd g)) grouped.

(** The part of [detect_subscriptions] below the conversion of the [date]
    column. *)
Definition detect_from (df : list Transaction) : Result (list Subscription) :=
  let potential_subs := _find_keyword_matches df in
  recurring_patterns <- _find_recurring_patterns df ;;
  let subscriptions := drop_duplicates (potential_subs ++ recurring_patterns) in
  let subscriptions :=
    map (fun t => {| row := t; category := _categorize_subscription (description t) |})
        subscriptions in
  _calculate_monthly_cost subscriptions.

(** ** The caller's table and [detect_subscriptions] *)

(** A cell of the [date] column of the table handed to
    [detect_subscriptions]: text as the parsers leave it, or a timestamp. *)
Inductive DateCell : Type :=
| DateText (s : string)
| DateStamp (t : Timestamp).

Record InputRow : Type := mkInputRow {
  in_date : DateCell;
  in_description : string;
  in_amount : Qc
}.

Section Detection.
(** What [pd.to_datetime] makes of one text; [None] when it raises. *)
Variable parse_datetime : string -> option Timestamp.

Definition to_datetime_cell (c : DateCell) : Result Timestamp :=
  match c with
  | DateStamp t => Ok t
  | DateText s =>
      match parse_datetime s with
      | Some t => Ok t
      | None => Raise ValueError
      end
  end.

Definition to_datetime (col : list DateCell) : Result (list Timestamp) :=
  for_each to_datetime_cell col.

(** [df['date'] = col], on the table itself. *)
Definition set_date (df : list InputRow) (col : list Timestamp) : list InputRow :=
  map (fun rt => {| in_date := DateStamp (snd rt);
                    in_description := in_description (fst rt);
                    in_amount := in_amount (fst rt) |})
      (combine df col).

(** The rows of a table whose [date] column has been set to [col]. *)
Definition transactions (df : list InputRow) (col : list Timestamp) : list Transaction :=
  map (fun rt => {| date := snd rt;
                    description := in_description (fst rt);
                    amount := in_amount (fst rt) |})
      (combine df col).

(** [detect_subscriptions] works on the caller's table: the result pairs
    the table as the call leaves it with what the call returns. *)
Definition detect_subscriptions (transactions_df : list InputRow)
  : list InputRow * Result (list Subscription) :=
  match to_datetime (map in_date transactions_df) with
  | Raise e => (transactions_df, Raise e)
  | Ok col =>
      (set_date transactions_df col, detect_from (transactions transactions_df col))
  end.
End Detection.

(** The ISO calendar dates [YYYY-MM-DD] among the texts [pd.to_datetime]
    reads, at midnight: enough to run the pipeline on concrete tables. *)
Definition digit (c : ascii) : option Z :=
  let n := N_of_ascii c in
  if ((48 <=? n) && (n <=? 57))%N then Some (Z.of_N n - 48) else None.

Definition number (ds : list ascii) : option Z :=
  fold_left (fun acc c =>
               match acc, digit c with
               | Some a, Some d => Some (10 * a + d)
               | _, _ => None
               end) ds (Some 0).

Definition is_leap (y : Z) : bool :=
  ((y mod 4 =? 0) && negb (y mod 100 =? 0)) || (y mod 400 =? 0).

Definition days_in_month (y m : Z) : Z :=
  if m =? 2 then (if is_leap y then 29 else 28)
  else if (m =? 4) || (m =? 6) || (m =? 9) || (m =? 11) then 30
  else 31.

Definition days_from_civil (y m d : Z) : Z :=
  let y' := if m <=? 2 then y - 1 else y in
  let era := y' / 400 in
  let yoe := y' - era * 400 in
  let doy := (153 * (if 2 <? m then m - 3 else m + 9) + 2) / 5 + d - 1 in
  let doe := yoe * 365 + yoe / 4 - yoe / 100 + doy in
  era * 146097 + doe - 719468.

Definition iso_date (s : string) : option Timestamp :=
  match list_ascii_of_string s with
  | [y1; y2; y3; y4; "-"%char; m1; m2; "-"%char; d1; d2] =>
      match number [y1; y2; y3; y4], number [m1; m2], number [d1; d2] with
      | Some y, Some m, Some d =>
          if (1 <=? m) && (m <=? 12) && (1 <=? d) && (d <=? days_in_month y m)
          then Some (days_from_civil y m d * ns_per_day)
          else None
      | _, _, _ => None
      end
  | _ => None
  end.

(** ** Doubles

    A product of two doubles is the exact product rounded to the nearest
    double, as IEEE 754 has it. Infinities and NaN are not modelled: the
    values are below 2^1024 in magnitude. *)

(** A monthly cost below 2^1020 in magnitude: no product of the analyzer
    overflows. *)
Definition in_range (x : Qc) : Prop :=
  (- of_int (2 ^ 1020) < x /\ x < of_int (2 ^ 1020))%Qc.

(** [2^z] *)
Definition pow2 (z : Z) : Q :=
  if 0 <=? z then inject_Z (2 ^ z) else / inject_Z (2 ^ (- z)).

(** The binary exponent of a positive rational: [2^e <= q < 2^(e+1)]. *)
Definition exponent (q : Q) : Z :=
  let e0 := Z.log2 (Qnum q) - Z.log2 (Zpos (Qden q)) in
  if Qle_bool (pow2 e0) q then e0 else e0 - 1.

(** The spacing of the doubles around a positive rational: 53 bits of
    mantissa, and below 2^-1022 the fixed spacing 2^-1074 of the subnormal
    doubles. *)
Definition ulp (a : Q) : Q := pow2 (Z.max (exponent a - 52) (-1074)).

(** The double nearest to a positive rational, a tie to the one of even
    mantissa. *)
Definition nearest (a : Q) : Q := inject_Z (round (Q2Qc (a / ulp a))) * ulp a.

(** The double nearest to [x]. *)
Definition binary64 (x : Qc) : Qc :=
  if Qc_eqb x (of_int 0) then of_int 0
  else Q2Qc ((if Qle_bool 0 x then 1 else -1) * nearest (Qabs.Qabs x)).

(** [a * b] on doubles *)
Definition float_mul (a b : Qc) : Qc := binary64 (a * b).

Opaque binary64.

(** ** The opportunity analyzer ([utils/visualizer.py]) *)

Inductive Opportunity : Type :=
| duplicate_category (category : string) (subscriptions : list string)
                     (monthly_cost : Qc) (recommendation : string)
| annual_discount (subscription : string) (monthly_cost : Qc)
                  (annual_savings : Qc) (recommendation : string).

Definition sub_description (s : Subscription) : string := description (row (base s)).
Definition sub_category (s : Subscription) : string := category (base s).

(** [series.sum()] of a float column. *)
Definition series_sum (l : list Qc) : Qc := fold_left Qcplus l (of_int 0).

(** [f'{x:.2f}'] of a double [x]: Python rounds the exact value of the double
    to two decimals, a tie to the even digit. *)
Definition format_2f (x : Qc) : string :=
  let cents := Z.abs (round (x * of_int 100)%Qc) in
  let frac := cents mod 100 in
  (if Qc_ltb x (of_int 0) then "-" else "")
  ++ str_of_int (cents / 100) ++ "."
  ++ (if frac <? 10 then "0" else "") ++ str_of_int frac.

Definition duplicate_opportunity (subscriptions_df : list Subscription) (category : string)
  : Opportunity :=
  let category_subs := filter (fun s => (sub_category s =? category)%string) subscriptions_df in
  duplicate_category category
    (map sub_description category_subs)
    (series_sum (map monthly_cost category_subs))
    ("Consider consolidating " ++ category ++ " subscriptions").

(** [sub['monthly_cost'] * 12 * 0.15], two products of doubles. The column
    holds doubles, so a cost is read as the double nearest to it; the literal
    [0.15] is the double nearest to 15/100. *)
Definition potential_annual_savings (sub : Subscription) : Qc :=
  float_mul (float_mul (binary64 (monthly_cost sub)) (of_int 12))
            (binary64 (Q2Qc (15 # 100))).

Definition annual_opportunity (sub : Subscription) : list Opportunity :=
  if Qc_ltb (of_int 20) (potential_annual_savings sub) then
    [annual_discount (sub_description sub) (monthly_cost sub)
       (potential_annual_savings sub)
       ("Switch to annual billing to save ~$"
          ++ format_2f (potential_annual_savings sub) ++ "/year")]
  else [].

Definition savings_opportunities (subscriptions_df : list Subscription) : list Opportunity :=
  let category_counts :=
    map (fun g => (fst g, List.length (snd g)))
        (groupby String.eqb String.leb sub_category subscriptions_df) in
  let duplicate_categories :=
    map fst (filter (fun cc => (1 <? snd cc)%nat) category_counts) in
  let duplicates :=
    match duplicate_categories with
    | [] => []
    | _ => map (duplicate_opportunity subscriptions_df) duplicate_categories
    end in
  let monthly_subs := filter (fun s => (frequency s =? "monthly")%string) subscriptions_df in
  duplicates ++ flat_map annual_opportunity monthly_subs.

(** ** CancellationService ([services/cancellation.py]) *)

(** An entry of [cancellation_info]; a key the entry lacks is [None]. *)
Record ServiceInfo : Type := mkServiceInfo {
  methods : list string;
  url : option string;
  phone : option string
}.

Definition cancellation_info : list (string * ServiceInfo) :=
  [ ("netflix",
     {| methods := ["Online Form"; "Phone"];
        url := Some "https://www.netflix.com/cancelplan";
        phone := Some "1-866-579-7172" |});
    ("spotify",
     {| methods := ["Online Form"];
        url := Some "https://www.spotify.com/account/subscription/cancel/";
        phone := None |});
    ("hulu",
     {| methods := ["Online Form"];
        url := Some "https://secure.hulu.com/account/cancel";
        phone := None |});
    ("amazon prime",
     {| methods := ["Online Form"];
        url := Some "https://www.amazon.com/gp/primecentral";
        phone := None |}) ].

Fixpoint first_methods (info : list (string * ServiceInfo)) (name : string)
  : option (list string) :=
  match info with
  | [] => None
  | (service, i) :: info' =>
      if contains service name then Some (methods i) else first_methods info' name
  end.

Definition get_cancellation_methods (subscription_name : string) : list string :=
  match first_methods cancellation_info (lower subscription_name) with
  | Some m => m
  | None => ["Email"; "Phone"; "Online Form"]
  end.

(** The loop of [get_cancellation_url] and of [get_phone_number]: the value
    under [key] of the first entry whose service occurs in the name and
    that has the key. *)
Fixpoint first_value (key : ServiceInfo -> option string)
         (info : list (string * ServiceInfo)) (name : string) : option string :=
  match info with
  | [] => None
  | (service, i) :: info' =>
      match (if contains service name then key i else None) with
      | Some v => Some v
      | None => first_value key info' name
      end
  end.

(** [s.replace(old, new)] for [old] and [new] of one character. *)
Fixpoint replace_char (old new : ascii) (s : string) : string :=
  match s with
  | EmptyString => EmptyString
  | String c s' =>
      String (if Ascii.eqb c old then new else c) (replace_char old new s')
  end.

Definition get_cancellation_url (subscription_name : string) : string :=
  match first_value url cancellation_info (lower subscription_name) with
  | Some u => u
  | None =>
      "https://www.google.com/search?q=how+to+cancel+"
        ++ replace_char " " "+" subscription_name ++ "+subscription"
  end.

Definition get_phone_number (subscription_name : string) : string :=
  match first_value phone cancellation_info (lower subscription_name) with
  | Some p => p
  | None => "Check the company's website for customer service contact information"
  end.

(** ** The column names of the CSV parser ([parsers/csv_parser.py]) *)

Definition column_mapping : list (string * list string) :=
  [ ("date", ["date"; "transaction date"; "trans date"; "posted date"]);
    ("description", ["description"; "transaction"; "details"; "merchant"; "name"]);
    ("amount", ["amount"; "transaction amount"; "debit"; "credit"]) ].

(** The loop over [self.data.columns]: the dict [new_columns], in the order
    its keys are set. *)
Fixpoint new_columns (columns : list string) : list (string * string) :=
  match columns with
  | [] => []
  | col :: columns' =>
      let col_lower := lower col in
      match first_category column_mapping col_lower with
      | Some standard => (col, standard) :: new_columns columns'
      | None => new_columns columns'
      end
  end.

(** [d.get(k)] for a dict held as its list of items. *)
Fixpoint dict_get (d : list (string * string)) (k : string) : option string :=
  match d with
  | [] => None
  | (k', v) :: d' => if (k' =? k)%string then Some v else dict_get d' k
  end.

(** [df.rename(columns=d)], on the column names. *)
Definition rename (columns : list string) (d : list (string * string)) : list string :=
  map (fun col => match dict_get d col with Some v => v | None => col end) columns.

(** [_detect_columns], on the column names of [self.data]. *)
Definition _detect_columns (columns : list string) : list string :=
  match new_columns columns with
  | [] => columns
  | d => rename columns d
  end.

(** ** Account numbers ([utils/anonymizer.py]) *)

(** A cell of the [account] column: text, an integer, or a missing value. *)
Inductive AccountValue : Type :=
| AccountText (s : string)
| AccountInt (n : Z)
| AccountMissing.

(** [str(v)] *)
Definition str_of_account (v : AccountValue) : string :=
  match v with
  | AccountText s => s
  | AccountInt n => str_of_int n
  | AccountMissing => "nan"
  end.

(** [not v or pd.isna(v)] *)
Definition is_blank (v : AccountValue) : bool :=
  match v with
  | AccountText s => (s =? "")%string
  | AccountInt n => n =? 0
  | AccountMissing => true
  end.

Section Anonymizer.
(** [hashlib.sha256(s.encode()).hexdigest()] *)
Variable sha256_hexdigest : string -> string.

Definition anonymize_account_number (account_num : AccountValue) : AccountValue :=
  if is_blank account_num then account_num
  else
    let account_str := str_of_account account_num in
    if (4 <=? String.length account_str)%nat then
      AccountText ("XXXX-" ++ String.substring (String.length account_str - 4) 4 account_str)
    else
      AccountText (String.substring 0 8 (sha256_hexdigest account_str)).
End Anonymizer.

Local Open Scope list_scope.

(** ** Notions the properties are stated with *)

(** [kw] occurs in [s]. *)
Definition substring (kw s : string) : Prop :=
  exists pre post, s = (pre ++ kw ++ post)%string.

(** Some keyword of the list occurs in [s]. *)
Definition matches (keywords : list string) (s : string) : Prop :=
  exists kw, In kw keywords /\ substring kw s.

(** The arithmetic mean of the gaps. *)
Definition mean_gap (ints : list Z) : Qc :=
  (of_int (py_sum ints) / of_int (Z.of_nat (List.length ints)))%Qc.

(** The day-gaps between consecutive rows of a group, in date order. *)
Definition gaps (group : list Transaction) : list Z :=
  intervals (map date (sort_values date group)).

(** Every gap is within 5 days of the mean gap. *)
Definition consistent (ints : list Z) : Prop :=
  forall i, In i ints -> (Qcabs.Qcabs (of_int i - mean_gap ints) <= of_int 5)%Qc.

(** The mean gap is that of a monthly or of an annual charge. *)
Definition periodic (ints : list Z) : Prop :=
  (of_int 25 <= mean_gap ints /\ mean_gap ints <= of_int 35)%Qc
  \/ (of_int 350 <= mean_gap ints /\ mean_gap ints <= of_int 380)%Qc.

(** The test [is_consistent and is_subscription_period] of the loop. *)
Definition is_recurring (ints : list Z) : bool :=
  forallb (fun interval => Qc_leb (Qcabs.Qcabs (of_int interval - mean_gap ints)) (of_int 5)) ints
  && (between 25 (mean_gap ints) 35 || between 350 (mean_gap ints) 380).

(** The key of [df.groupby(['description', 'amount'])]. *)
Definition by_description_amount (t : Transaction) : string * Qc :=
  (description t, amount t).

(** The rows of [df] that share a description and an amount. *)
Definition group_of (df : list Transaction) (desc : string) (amt : Qc) : list Transaction :=
  filter (has_key pair_eqb by_description_amount (desc, amt)) df.

(** The day-gaps between consecutive rows of a group of candidates, in date
    order. *)
Definition candidate_gaps (group : list Candidate) : list Z :=
  intervals (map cand_date (sort_values cand_date group)).

(** The row the loop appends for a group of two rows or more whose most
    recent row is [last] and whose mean gap is [m]. *)
Definition recurring_subscription (last : Candidate) (m : Qc) : Result Subscription :=
  if between 25 m 35 then
    Ok {| base := last; monthly_cost := amount (row last);
          frequency := "monthly"; last_charge := cand_date last |}
  else if between 350 m 380 then
    Ok {| base := last; monthly_cost := (amount (row last) / of_int 12)%Qc;
          frequency := "annual"; last_charge := cand_date last |}
  else if Qc_eqb m (of_int 0) then Raise ZeroDivisionError
  else
    Ok {| base := last; monthly_cost := (amount (row last) * (of_int 30 / m))%Qc;
          frequency := ("every " ++ str_of_int (round m) ++ " days")%string;
          last_charge := cand_date last |}.

(** The rows of the candidate table that share a description. *)
Definition description_group (df : list Candidate) (d : string) : list Candidate :=
  filter (has_key String.eqb cand_description d) df.

(** The frequency enumeration of the data model, and the text that stands
    for each of its values in the [frequency] column. *)
Inductive Frequency : Type :=
| monthly
| annual
| custom_interval
| unknown.

Inductive frequency_text : Frequency -> string -> Prop :=
| text_monthly : frequency_text monthly "monthly"
| text_annual : frequency_text annual "annual"
| text_custom (n : Z) :
    frequency_text custom_interval ("every " ++ str_of_int n ++ " days")%string
| text_unknown : frequency_text unknown "unknown".

(** [o] is a duplicate_category opportunity of the category. *)
Definition duplicate_of (category : string) (o : Opportunity) : bool :=
  match o with
  | duplicate_category c _ _ _ => (c =? category)%string
  | annual_discount _ _ _ _ => false
  end.

(** The subscriptions of a category. *)
Definition members (subscriptions_df : list Subscription) (category : string)
  : list Subscription :=
  filter (fun s => (sub_category s =? category)%string) subscriptions_df.

(** The categories [savings_opportunities] reports as duplicated. *)
Definition duplicate_categories (subscriptions_df : list Subscription) : list string :=
  map fst (filter (fun cc => (1 <? snd cc)%nat)
             (map (fun g => (fst g, List.length (snd g)))
                (groupby String.eqb String.leb sub_category subscriptions_df))).

(** A row of the combined table with its [category] column. *)
Definition categorized (t : Transaction) : Candidate :=
  {| row := t; category := _categorize_subscription (description t) |}.

(** The table [detect_subscriptions] hands to [_calculate_monthly_cost]:
    the keyword matches and the recurring patterns, without duplicates,
    categorized. *)
Definition combined_candidates (df recurring : list Transaction) : list Candidate :=
  map categorized (drop_duplicates (_find_keyword_matches df ++ recurring)).

(** The category of a duplicate_category opportunity. *)
Definition opportunity_category (o : Opportunity) : option string :=
  match o with
  | duplicate_category c _ _ _ => Some c
  | annual_discount _ _ _ _ => None
  end.

(** The answer of [get_phone_number] when it has no number. *)
Definition no_phone_number : string :=
  "Check the company's website for customer service contact information".

(** The standard name that three keywords per column decide: what
    [_detect_columns] makes of a column name, as shown below. *)
Definition effective_name (col : string) : string :=
  let col_lower := lower col in
  if contains "date" col_lower then "date"
  else if any (fun var => contains var col_lower)
              ["description"; "transaction"; "details"; "merchant"; "name"]
       then "description"
  else if any (fun var => contains var col_lower) ["amount"; "debit"; "credit"]
       then "amount"
  else col.

(** ** Sample tables *)

(** Midnight of the [n]th day since 1970-01-01. *)
Definition day (n : Z) : Timestamp := n * ns_per_day.

Definition charge (d : Z) (desc : string) (a : Q) : Transaction :=
  {| date := day d; description := desc; amount := Q2Qc a |}.

(** A pool paid at gaps of 30 and 31 days, and a club paid at gaps of 20 and
    40 days: both mean gaps lie in [25,35]. *)
Definition pool_and_club : list Transaction :=
  [ charge 30 "POOL" (30 # 1); charge 0 "CLUB" (25 # 1); charge 0 "POOL" (30 # 1);
    charge 20 "CLUB" (25 # 1); charge 61 "POOL" (30 # 1); charge 60 "CLUB" (25 # 1);
    charge 7 "KIOSK" (3 # 1) ].

(** A single charge of $120 for a domain, next to three monthly charges on
    2023-01-01, 2023-02-01 and 2023-03-03. *)
Definition domain_charge : Candidate :=
  {| row := {| date := day 19400; description := "DOMAIN REGISTRATION";
               amount := Q2Qc (120 # 1) |};
     category := "other" |}.

Definition netflix_charge (d : Z) : Candidate :=
  {| row := {| date := day d; description := "NETFLIX.COM";
               amount := Q2Qc (1549 # 100) |};
     category := "streaming" |}.

Definition sample_candidates : list Candidate :=
  [netflix_charge 19358; domain_charge; netflix_charge 19419; netflix_charge 19389].

Definition sample_subscriptions : list Subscription :=
  [ {| base := domain_charge; monthly_cost := Q2Qc (120 # 1);
       frequency := "unknown"; last_charge := day 19400 |};
    {| base := netflix_charge 19419; monthly_cost := Q2Qc (1549 # 100);
       frequency := "monthly"; last_charge := day 19419 |} ].

Definition input_row (d : string) (desc : string) (a : Q) : InputRow :=
  {| in_date := DateText d; in_description := desc; in_amount := Q2Qc a |}.

(** A statement as the CSV parser hands it over: three Netflix charges, a
    pool paid twice 30 days apart (no keyword: its recurrence finds it), and
    groceries. *)
Definition sample_statement : list InputRow :=
  [ input_row "2023-01-01" "NETFLIX.COM" (1549 # 100);
    input_row "2023-01-05" "GROCERY STORE" (8230 # 100);
    input_row "2023-01-10" "CITY POOL" (30 # 1);
    input_row "2023-02-01" "NETFLIX.COM" (1549 # 100);
    input_row "2023-02-09" "CITY POOL" (30 # 1);
    input_row "2023-03-03" "NETFLIX.COM" (1549 # 100) ].

(** Two charges of one merchant on one day, of different amounts. *)
Definition same_day_charges : list InputRow :=
  [ input_row "2023-01-01" "NETFLIX.COM" (1549 # 100);
    input_row "2023-01-01" "NETFLIX.COM" (799 # 100) ].

Definition subscription (desc cat : string) (cost : Q) (freq : string) : Subscription :=
  {| base := {| row := {| date := day 19419; description := desc; amount := Q2Qc cost |};
                category := cat |};
     monthly_cost := Q2Qc cost;
     frequency := freq;
     last_charge := day 19419 |}.

(** A monthly subscription at 11.111111111111112, just above 100/9. *)
Definition threshold_subscription : Subscription :=
  subscription "BACKUP" "other" (11111111111111112 # 1000000000000000) "monthly".

(** Two streaming services at $50 and $5 a month and a yearly domain. *)
Definition sample_table : list Subscription :=
  [ subscription "NETFLIX.COM" "streaming" (50 # 1) "monthly";
    subscription "DOMAIN REGISTRATION" "other" (10 # 1) "annual";
    subscription "HULU.COM" "streaming" (5 # 1) "monthly" ].

(** * Properties *)

(** ** Results and loops *)

Lemma for_each_Ok {A B : Type} (body : A -> Result B) (l : list A) (r : list B) :
  for_each body l = Ok r -> Forall2 (fun x y => body x = Ok y) l r.
Proof.
  revert r; induction l as [|x l IH]; simpl; intros r H.
  - injection H as <-. constructor.
  - destruct (body x) as [y|e] eqn:Hx; simpl in H; [|discriminate].
    destruct (for_each body l) as [ys|e] eqn:Hl; simpl in H; [|discriminate].
    injection H as <-. constructor; auto.
Qed.

Lemma for_each_total {A B : Type} (body : A -> Result B) (l : list A) :
  (forall x, In x l -> exists y, body x = Ok y) -> exists r, for_each body l = Ok r.
Proof.
  induction l as [|x l IH]; simpl; intros H.
  - eexists; reflexivity.
  - destruct (H x) as [y Hy]; [now left|].
    destruct IH as [r Hr]; [intros; apply H; now right|].
    rewrite Hy, Hr. simpl. eexists; reflexivity.
Qed.

Lemma for_each_Raise {A B : Type} (body : A -> Result B) (l : list A) (x : A) (e : Exception) :
  In x l -> body x = Raise e -> exists e', for_each body l = Raise e'.
Proof.
  induction l as [|a l IH]; simpl; intros Hin Hx; [contradiction|].
  destruct Hin as [->|Hin].
  - rewrite Hx. simpl. eexists; reflexivity.
  - destruct (body a); simpl; [|eexists; reflexivity].
    destruct (IH Hin Hx) as [e' ->]. simpl. eexists; reflexivity.
Qed.

Lemma Forall2_In_l {A B : Type} (R : A -> B -> Prop) (l : list A) (r : list B) (x : A) :
  Forall2 R l r -> In x l -> exists y, In y r /\ R x y.
Proof.
  induction 1 as [|a b l r Hab _ IH]; simpl; [contradiction|].
  intros [->|Hin]; [exists b; auto|].
  destruct (IH Hin) as [y [Hy HR]]. exists y; auto.
Qed.

Lemma Forall2_In_r {A B : Type} (R : A -> B -> Prop) (l : list A) (r : list B) (y : B) :
  Forall2 R l r -> In y r -> exists x, In x l /\ R x y.
Proof.
  induction 1 as [|a b l r Hab _ IH]; simpl; [contradiction|].
  intros [->|Hin]; [exists a; auto|].
  destruct (IH Hin) as [x [Hx HR]]. exists x; auto.
Qed.

Lemma Forall2_map_eq {A B C : Type} (f : A -> C) (g : B -> C) (R : A -> B -> Prop)
      (l : list A) (r : list B) :
  (forall x y, In x l -> R x y -> f x = g y) -> Forall2 R l r -> map f l = map g r.
Proof.
  intros Hfg H. induction H as [|a b l r Hab _ IH]; simpl; [reflexivity|].
  f_equal; [apply Hfg; simpl; auto|].
  apply IH. intros; apply Hfg; simpl; auto.
Qed.

(** ** Numbers *)

Lemma Qc_eqb_eq (x y : Qc) : Qc_eqb x y = true <-> x = y.
Proof.
  unfold Qc_eqb. rewrite Qeq_bool_iff. split.
  - apply Qc_is_canon.
  - intros ->. reflexivity.
Qed.

Lemma Qc_leb_le (x y : Qc) : Qc_leb x y = true <-> (x <= y)%Qc.
Proof. unfold Qc_leb, Qcle. apply Qle_bool_iff. Qed.

Lemma Qc_ltb_lt (x y : Qc) : Qc_ltb x y = true <-> (x < y)%Qc.
Proof.
  unfold Qc_ltb, Qclt. rewrite negb_true_iff.
  split; intros H.
  - apply Qnot_le_lt. intros Hle. apply Qle_bool_iff in Hle. congruence.
  - destruct (Qle_bool y x) eqn:E; [|reflexivity].
    apply Qle_bool_iff in E. exfalso. exact (Qlt_not_le _ _ H E).
Qed.

Lemma between_spec (lo hi : Z) (x : Qc) :
  between lo x hi = true <-> (of_int lo <= x /\ x <= of_int hi)%Qc.
Proof. unfold between. rewrite andb_true_iff, !Qc_leb_le. tauto. Qed.

Lemma truediv_Ok (a b q : Qc) :
  truediv a b = Ok q <-> b <> of_int 0 /\ q = (a / b)%Qc.
Proof.
  unfold truediv. destruct (Qc_eqb b (of_int 0)) eqn:E.
  - apply Qc_eqb_eq in E. split; [discriminate|]. intros [H _]. contradiction.
  - split.
    + intros H. injection H as <-. split; [|reflexivity].
      intros Hb. apply Qc_eqb_eq in Hb. congruence.
    + intros [_ ->]. reflexivity.
Qed.

Lemma truediv_Raise (a b : Qc) (e : Exception) :
  truediv a b = Raise e <-> b = of_int 0 /\ e = ZeroDivisionError.
Proof.
  unfold truediv. destruct (Qc_eqb b (of_int 0)) eqn:E.
  - apply Qc_eqb_eq in E. split.
    + intros H. injection H as <-. auto.
    + intros [_ ->]. reflexivity.
  - split; [discriminate|]. intros [Hb _]. apply Qc_eqb_eq in Hb. congruence.
Qed.

Lemma transaction_eqb_eq (a b : Transaction) : transaction_eqb a b = true <-> a = b.
Proof.
  unfold transaction_eqb. rewrite !andb_true_iff, Z.eqb_eq, String.eqb_eq, Qc_eqb_eq.
  destruct a, b; simpl. split.
  - intros [[-> ->] ->]. reflexivity.
  - intros H. injection H as -> -> ->. auto.
Qed.

Lemma pair_eqb_eq (a b : string * Qc) : pair_eqb a b = true <-> a = b.
Proof.
  unfold pair_eqb. rewrite andb_true_iff, String.eqb_eq, Qc_eqb_eq.
  destruct a, b; simpl. split.
  - intros [-> ->]. reflexivity.
  - intros H. injection H as -> ->. auto.
Qed.

(** ** Sorting *)

Section SortingFacts.
Context {A : Type}.
Variable leb : A -> A -> bool.

Lemma insert_sorted_perm (x : A) (l : list A) :
  Permutation (insert_sorted leb x l) (x :: l).
Proof.
  induction l as [|y l IH]; simpl; [reflexivity|].
  destruct (leb x y); [reflexivity|].
  rewrite IH. apply perm_swap.
Qed.

Lemma sort_by_perm (l : list A) : Permutation (sort_by leb l) l.
Proof.
  induction l as [|x l IH]; simpl; [reflexivity|].
  rewrite insert_sorted_perm. now constructor.
Qed.

Lemma sort_by_In (l : list A) (x : A) : In x (sort_by leb l) <-> In x l.
Proof.
  split; apply Permutation_in; [|symmetry]; apply sort_by_perm.
Qed.

Lemma sort_by_length (l : list A) : List.length (sort_by leb l) = List.length l.
Proof. apply Permutation_length, sort_by_perm. Qed.

Lemma sort_by_NoDup (l : list A) : NoDup l -> NoDup (sort_by leb l).
Proof.
  intros H. eapply Permutation_NoDup; [|exact H]. symmetry. apply sort_by_perm.
Qed.

Hypothesis leb_total : forall x y, leb x y = true \/ leb y x = true.

Lemma insert_sorted_sorted (x : A) (l : list A) :
  Sorted (fun a b => leb a b = true) l ->
  Sorted (fun a b => leb a b = true) (insert_sorted leb x l).
Proof.
  induction l as [|y l IH]; simpl; intros H.
  - repeat constructor.
  - destruct (leb x y) eqn:E.
    + constructor; [exact H|]. constructor. exact E.
    + inversion H as [|? ? Hs Hh]; subst.
      constructor; [auto|].
      destruct l as [|z l]; simpl.
      * constructor. destruct (leb_total x y); congruence.
      * destruct (leb x z); constructor.
        -- destruct (leb_total x y); congruence.
        -- inversion Hh; assumption.
Qed.

Lemma sort_by_sorted (l : list A) : Sorted (fun a b => leb a b = true) (sort_by leb l).
Proof.
  induction l as [|x l IH]; simpl; [constructor|].
  now apply insert_sorted_sorted.
Qed.
End SortingFacts.

(** ** Grouping *)

Section UniqueFacts.
Context {K : Type}.
Variable eqb : K -> K -> bool.
Hypothesis eqb_eq : forall x y, eqb x y = true <-> x = y.

Lemma unique_In (l : list K) (k : K) : In k (unique eqb l) <-> In k l.
Proof.
  induction l as [|a l IH]; simpl; [tauto|].
  rewrite filter_In, IH, negb_true_iff.
  split.
  - intros [H|[H _]]; auto.
  - intros [H|H]; [now left|].
    destruct (eqb a k) eqn:E; [left; now apply eqb_eq|right; auto].
Qed.

Lemma unique_NoDup (l : list K) : NoDup (unique eqb l).
Proof.
  induction l as [|a l IH]; simpl; constructor.
  - rewrite filter_In, (proj2 (eqb_eq a a) eq_refl). simpl. intros [_ H]. discriminate.
  - now apply NoDup_filter.
Qed.
End UniqueFacts.

Section GroupFacts.
Context {A K : Type}.
Variable eqb : K -> K -> bool.
Variable key : A -> K.
Hypothesis eqb_eq : forall x y, eqb x y = true <-> x = y.

Lemma has_key_spec (k : K) (r : A) : has_key eqb key k r = true <-> key r = k.
Proof. unfold has_key. apply eqb_eq. Qed.

Lemma group_member (df : list A) (k : K) (r : A) :
  In r (filter (has_key eqb key k) df) <-> In r df /\ key r = k.
Proof. rewrite filter_In, has_key_spec. tauto. Qed.

Lemma group_nonempty (df : list A) (k : K) :
  In k (map key df) -> filter (has_key eqb key k) df <> [].
Proof.
  rewrite in_map_iff. intros [r [Hk Hin]] E.
  assert (H : In r (filter (has_key eqb key k) df)) by (apply group_member; auto).
  rewrite E in H. contradiction.
Qed.
End GroupFacts.

Section GroupbyFacts.
Context {A K : Type}.
Variable eqb : K -> K -> bool.
Variable leb : K -> K -> bool.
Variable key : A -> K.
Hypothesis eqb_eq : forall x y, eqb x y = true <-> x = y.

Lemma groupby_In (df : list A) (k : K) (g : list A) :
  In (k, g) (groupby eqb leb key df) <->
  In k (map key df) /\ g = filter (has_key eqb key k) df.
Proof.
  unfold groupby. rewrite in_map_iff. split.
  - intros [k' [H Hin]]. injection H as -> <-.
    rewrite sort_by_In, unique_In in Hin by exact eqb_eq. auto.
  - intros [Hin ->]. exists k. split; [reflexivity|].
    rewrite sort_by_In, unique_In by exact eqb_eq. exact Hin.
Qed.

Lemma groupby_keys (df : list A) :
  map fst (groupby eqb leb key df) = sort_by leb (unique eqb (map key df)).
Proof.
  unfold groupby. rewrite map_map. simpl. apply map_id.
Qed.

Lemma groupby_keys_NoDup (df : list A) : NoDup (map fst (groupby eqb leb key df)).
Proof. rewrite groupby_keys. apply sort_by_NoDup, unique_NoDup, eqb_eq. Qed.

Lemma groupby_key_In (df : list A) (k : K) :
  In k (map fst (groupby eqb leb key df)) <-> In k (map key df).
Proof. rewrite groupby_keys, sort_by_In. apply unique_In, eqb_eq. Qed.
End GroupbyFacts.

(** ** Strings *)

Lemma prefix_spec (p s : string) :
  String.prefix p s = true <-> exists post, s = (p ++ post)%string.
Proof.
  revert s; induction p as [|c p IH]; intros s.
  - destruct s; simpl; split; eauto.
  - destruct s as [|d s]; simpl.
    + split; [discriminate|]. intros [post H]. discriminate.
    + destruct (ascii_dec c d) as [->|Hcd].
      * rewrite IH. split; intros [post H]; exists post; [now rewrite H|].
        now injection H.
      * split; [discriminate|]. intros [post H]. injection H as -> _. contradiction.
Qed.

Lemma contains_spec (kw s : string) :
  contains kw s = true <-> exists pre post, s = (pre ++ kw ++ post)%string.
Proof.
  induction s as [|c s IH].
  - change (contains kw "") with (String.prefix kw "" || false).
    rewrite orb_true_iff, prefix_spec. split.
    + intros [[post H]|H]; [|discriminate]. exists "", post. exact H.
    + intros [pre [post H]]. left. destruct pre; simpl in H.
      * eauto.
      * discriminate.
  - change (contains kw (String c s)) with (String.prefix kw (String c s) || contains kw s).
    rewrite orb_true_iff, prefix_spec, IH. split.
    + intros [[post H]|[pre [post H]]].
      * exists "", post. exact H.
      * exists (String c pre), post. simpl. now rewrite H.
    + intros [pre [post H]]. destruct pre as [|d pre]; simpl in H.
      * left. eauto.
      * right. injection H as _ H. eauto.
Qed.

(** ** Categorization *)

Lemma any_contains (keywords : list string) (s : string) :
  any (fun keyword => contains keyword s) keywords = true <-> matches keywords s.
Proof.
  unfold any, matches, substring. rewrite existsb_exists.
  split; intros [kw [Hin H]]; exists kw; (split; [exact Hin|]); now apply contains_spec.
Qed.

Lemma first_category_match (before after : list (string * list string))
      (category : string) (keywords : list string) (s : string) :
  matches keywords s ->
  (forall c, In c before -> ~ matches (snd c) s) ->
  first_category (before ++ (category, keywords) :: after) s = Some category.
Proof.
  intros Hm. induction before as [|[c kws] before IH]; simpl; intros Hno.
  - apply any_contains in Hm. now rewrite Hm.
  - destruct (any (fun keyword => contains keyword s) kws) eqn:E.
    + apply any_contains in E. exfalso. apply (Hno (c, kws)); auto.
    + apply IH. intros c' Hc'. apply Hno. auto.
Qed.

Lemma first_category_none (cats : list (string * list string)) (s : string) :
  (forall c, In c cats -> ~ matches (snd c) s) -> first_category cats s = None.
Proof.
  induction cats as [|[c kws] cats IH]; simpl; intros Hno; [reflexivity|].
  destruct (any (fun keyword => contains keyword s) kws) eqn:E.
  - apply any_contains in E. exfalso. apply (Hno (c, kws)); auto.
  - apply IH. intros c' Hc'. apply Hno. auto.
Qed.

(** C6. [_categorize_subscription] returns the first category, in the order
    the mapping declares them, one of whose keywords occurs in the
    lower-cased description; it returns "other" when no keyword of any
    category occurs in it; and equal descriptions get equal categories. *)
Theorem categorize_subscription_first_match (d : string) :
  (forall before category keywords after,
      categories = before ++ (category, keywords) :: after ->
      matches keywords (lower d) ->
      (forall c, In c before -> ~ matches (snd c) (lower d)) ->
      _categorize_subscription d = category)
  /\ ((forall c, In c categories -> ~ matches (snd c) (lower d)) ->
      _categorize_subscription d = "other")
  /\ (forall d', d' = d -> _categorize_subscription d' = _categorize_subscription d).
Proof.
  unfold _categorize_subscription. repeat split.
  - intros before category keywords after Hcat Hm Hno.
    rewrite Hcat, (first_category_match before after category keywords); auto.
  - intros Hno. now rewrite first_category_none.
  - intros d' ->. reflexivity.
Qed.

Lemma no_match_by_evaluation (keywords : list string) (s : string) :
  any (fun keyword => contains keyword s) keywords = false -> ~ matches keywords s.
Proof. intros E H. apply any_contains in H. congruence. Qed.

(** "XBOX LIVE" holds "box" of [cloud] and "xbox" of [gaming]: the mapping
    declares [cloud] first. *)
Lemma categorize_subscription_first_match_witness :
  _categorize_subscription "XBOX LIVE" = "cloud"
  /\ _categorize_subscription "GROCERY STORE" = "other".
Proof.
  destruct (categorize_subscription_first_match "XBOX LIVE") as [Hfirst _].
  destruct (categorize_subscription_first_match "GROCERY STORE") as [_ [Hother _]].
  split.
  - apply (Hfirst (firstn 2 categories) "cloud"
                  ["dropbox"; "google one"; "icloud"; "onedrive"; "box"]
                  (skipn 3 categories)).
    + reflexivity.
    + apply any_contains. vm_compute. reflexivity.
    + intros c Hc. apply no_match_by_evaluation.
      simpl in Hc. destruct Hc as [<-|[<-|[]]]; vm_compute; reflexivity.
  - apply Hother. intros c Hc. apply no_match_by_evaluation.
    repeat (destruct Hc as [<-|Hc]; [vm_compute; reflexivity|]). destruct Hc.
Defined.

(** ** Gaps and their mean *)

Lemma of_int_inj (a b : Z) : of_int a = of_int b <-> a = b.
Proof. unfold of_int. rewrite Q2Qc_eq_iff. apply inject_Z_injective. Qed.

Lemma intervals_length (dates : list Timestamp) :
  List.length (intervals dates) = (List.length dates - 1)%nat.
Proof.
  induction dates as [|a [|b l] IH]; simpl in *; try reflexivity.
  rewrite IH. lia.
Qed.

Lemma mean_Ok (ints : list Z) : ints <> [] -> mean ints = Ok (mean_gap ints).
Proof.
  intros H. unfold mean. apply truediv_Ok. split; [|reflexivity].
  rewrite of_int_inj. destruct ints; [contradiction|simpl; lia].
Qed.

Section SortValues.
Context {A : Type}.
Variable date_of : A -> Timestamp.

Lemma sort_values_perm (df : list A) : Permutation (sort_values date_of df) df.
Proof. apply sort_by_perm. Qed.

Lemma sort_values_In (df : list A) (r : A) : In r (sort_values date_of df) <-> In r df.
Proof. apply sort_by_In. Qed.

Lemma sort_values_length (df : list A) :
  List.length (sort_values date_of df) = List.length df.
Proof. apply sort_by_length. Qed.

Lemma sort_values_sorted (df : list A) :
  StronglySorted (fun a b => date_of a <= date_of b) (sort_values date_of df).
Proof.
  apply Sorted_StronglySorted.
  - intros a b c; lia.
  - eapply Sorted_ind with (P := Sorted (fun a b => date_of a <= date_of b));
      [constructor| |apply (sort_by_sorted (fun a b => date_of a <=? date_of b))].
    + intros a l _ IH Hh. constructor; [exact IH|].
      destruct Hh; constructor. now apply Z.leb_le.
    + intros x y. rewrite !Z.leb_le. lia.
Qed.

(** [iloc[0]] of the sorted group is a row of earliest date. *)
Lemma sort_values_first (df : list A) :
  df <> [] ->
  exists first, iloc_first (sort_values date_of df) = Ok first
                /\ In first df
                /\ forall r, In r df -> date_of first <= date_of r.
Proof.
  intros Hne.
  pose proof (sort_values_sorted df) as Hs.
  pose proof (sort_values_In df) as Hin.
  pose proof (sort_values_length df) as Hlen.
  destruct (sort_values date_of df) as [|x l].
  - destruct df; [contradiction|discriminate].
  - exists x. split; [reflexivity|]. split; [apply Hin; now left|].
    intros r Hr. apply Hin in Hr. destruct Hr as [->|Hr]; [lia|].
    apply StronglySorted_inv in Hs. destruct Hs as [_ Hall].
    rewrite Forall_forall in Hall. now apply Hall.
Qed.

Lemma iloc_last_spec (l : list A) (x : A) : iloc_last (l ++ [x]) = Ok x.
Proof.
  induction l as [|a l IH]; [reflexivity|].
  simpl. destruct (l ++ [x]) eqn:E; [destruct l; discriminate|exact IH].
Qed.

(** [iloc[-1]] of the sorted group is a row of latest date. *)
Lemma sort_values_last (df : list A) :
  df <> [] ->
  exists last, iloc_last (sort_values date_of df) = Ok last
               /\ In last df
               /\ forall r, In r df -> date_of r <= date_of last.
Proof.
  intros Hne.
  pose proof (sort_values_sorted df) as Hs.
  pose proof (sort_values_In df) as Hin.
  pose proof (sort_values_length df) as Hlen.
  destruct (sort_values date_of df) as [|x l] using rev_ind.
  - destruct df; [contradiction|discriminate].
  - exists x. split; [apply iloc_last_spec|].
    split; [apply Hin, in_or_app; right; now left|].
    intros r Hr. apply Hin in Hr. apply in_app_or in Hr.
    destruct Hr as [Hr|[->|[]]]; [|lia].
    clear - Hs Hr. induction l as [|a l IH]; [contradiction|].
    simpl in Hs. apply StronglySorted_inv in Hs. destruct Hs as [Hs Hall].
    destruct Hr as [->|Hr]; [|auto].
    rewrite Forall_forall in Hall. apply Hall, in_or_app. right. now left.
Qed.
End SortValues.

(** ** The recurrence analyzer *)

Lemma is_recurring_spec (ints : list Z) :
  is_recurring ints = true <-> consistent ints /\ periodic ints.
Proof.
  unfold is_recurring, consistent, periodic.
  rewrite andb_true_iff, orb_true_iff, forallb_forall, !between_spec.
  split; intros [Hc Hp]; (split; [|exact Hp]); intros i Hi; apply Qc_leb_le; auto.
Qed.

Lemma gaps_nonempty (group : list Transaction) :
  (2 <= List.length group)%nat -> gaps group <> [].
Proof.
  intros H E. apply (f_equal (@List.length Z)) in E.
  unfold gaps in E. rewrite intervals_length, length_map, sort_values_length in E.
  simpl in E. lia.
Qed.

Lemma recurring_rows_many (group : list Transaction) :
  (2 <= List.length group)%nat ->
  exists earliest,
    iloc_first (sort_values date group) = Ok earliest
    /\ In earliest group
    /\ (forall r, In r group -> date earliest <= date r)
    /\ recurring_rows group = Ok (if is_recurring (gaps group) then [earliest] else []).
Proof.
  intros Hlen.
  destruct (sort_values_first date group) as [earliest [Hfirst [Hin Hmin]]].
  { destruct group; simpl in Hlen; [lia|discriminate]. }
  exists earliest. repeat split; auto.
  unfold recurring_rows.
  apply Nat.leb_le in Hlen. rewrite Hlen.
  pose proof (gaps_nonempty group (proj1 (Nat.leb_le _ _) Hlen)) as Hne.
  fold (gaps group).
  destruct (gaps group) as [|i ints] eqn:E; [contradiction|].
  change (1 <=? List.length (i :: ints))%nat with true. cbv iota.
  rewrite mean_Ok by discriminate. cbn [bind].
  fold (is_recurring (i :: ints)).
  destruct (is_recurring (i :: ints)); [|reflexivity].
  rewrite Hfirst. reflexivity.
Qed.

Lemma recurring_rows_single (group : list Transaction) :
  (List.length group < 2)%nat -> recurring_rows group = Ok [].
Proof.
  intros H. unfold recurring_rows.
  apply Nat.leb_gt in H. now rewrite H.
Qed.

Lemma recurring_rows_total (group : list Transaction) :
  exists rows, recurring_rows group = Ok rows /\ forall r, In r rows -> In r group.
Proof.
  destruct (Nat.le_gt_cases 2 (List.length group)) as [H|H].
  - destruct (recurring_rows_many group H) as [e [_ [Hin [_ Hr]]]].
    eexists; split; [exact Hr|].
    destruct (is_recurring (gaps group)); simpl; intros r Hr'; [|contradiction].
    destruct Hr' as [<-|[]]. exact Hin.
  - rewrite recurring_rows_single by exact H. exists []. split; [reflexivity|].
    intros r [].
Qed.

Lemma find_recurring_patterns_total (df : list Transaction) :
  exists out, _find_recurring_patterns df = Ok out.
Proof.
  unfold _find_recurring_patterns.
  destruct (for_each_total (fun g => recurring_rows (snd g))
              (groupby pair_eqb pair_leb (fun t => (description t, amount t)) df))
    as [rows Hrows].
  - intros g _. destruct (recurring_rows_total (snd g)) as [rows [H _]]. eauto.
  - rewrite Hrows. simpl. eauto.
Qed.

Lemma find_recurring_patterns_In (df out : list Transaction) (r : Transaction) :
  _find_recurring_patterns df = Ok out ->
  (In r out <->
   exists rows,
     recurring_rows (filter (has_key pair_eqb by_description_amount (by_description_amount r)) df)
     = Ok rows /\ In r rows).
Proof.
  unfold _find_recurring_patterns.
  fold by_description_amount.
  destruct (for_each _ _) as [rows|e] eqn:E; simpl; [|discriminate].
  intros H. injection H as <-.
  apply for_each_Ok in E. rewrite in_concat. split.
  - intros [rs [Hrs Hr]].
    destruct (Forall2_In_r _ _ _ _ E Hrs) as [[k g] [Hg Hrec]]. simpl in Hrec.
    apply (groupby_In _ _ _ pair_eqb_eq) in Hg. destruct Hg as [Hk ->].
    destruct (recurring_rows_total (filter (has_key pair_eqb by_description_amount k) df))
      as [rs' [Hrs' Hsub]].
    assert (rs' = rs) by congruence. subst rs'.
    pose proof (Hsub _ Hr) as Hkey.
    apply (group_member _ _ pair_eqb_eq) in Hkey. destruct Hkey as [_ Hkey].
    rewrite Hkey. eauto.
  - intros [rs [Hrec Hr]].
    assert (Hin : In r df).
    { destruct (recurring_rows_total
                  (filter (has_key pair_eqb by_description_amount (by_description_amount r)) df))
        as [rs' [Hrs' Hsub]].
      assert (rs' = rs) by congruence. subst rs'.
      apply Hsub, (group_member _ _ pair_eqb_eq) in Hr. tauto. }
    assert (Hg : In (by_description_amount r,
                     filter (has_key pair_eqb by_description_amount (by_description_amount r)) df)
                    (groupby pair_eqb pair_leb by_description_amount df)).
    { apply (groupby_In _ _ _ pair_eqb_eq). split; [|reflexivity]. now apply in_map. }
    destruct (Forall2_In_l _ _ _ _ E Hg) as [rs' [Hrs' Hrec']]. simpl in Hrec'.
    exists rs'. split; [exact Hrs'|]. congruence.
Qed.

(** C3. [_find_recurring_patterns] returns a table, and for every
    (description, amount): when at least two rows share them, the table holds
    the earliest of these rows if and only if every gap between consecutive
    rows is within 5 days of the mean gap and the mean gap lies in [25,35] or
    in [350,380], and it holds no other row of the group; when fewer than
    two rows share them, the table holds no row of the group. *)
Theorem find_recurring_patterns_spec (df : list Transaction) :
  exists out,
    _find_recurring_patterns df = Ok out
    /\ forall desc amt,
      ((2 <= List.length (group_of df desc amt))%nat ->
       exists earliest,
         iloc_first (sort_values date (group_of df desc amt)) = Ok earliest
         /\ In earliest (group_of df desc amt)
         /\ (forall r, In r (group_of df desc amt) -> date earliest <= date r)
         /\ (In earliest out <->
             consistent (gaps (group_of df desc amt))
             /\ periodic (gaps (group_of df desc amt)))
         /\ (forall r, In r out -> by_description_amount r = (desc, amt) -> r = earliest))
      /\ ((List.length (group_of df desc amt) < 2)%nat ->
          forall r, In r out -> by_description_amount r <> (desc, amt)).
Proof.
  destruct (find_recurring_patterns_total df) as [out Hout].
  exists out. split; [exact Hout|].
  intros desc amt. unfold group_of. split.
  - intros Hlen.
    destruct (recurring_rows_many _ Hlen) as [earliest [Hfirst [Hin [Hmin Hrows]]]].
    exists earliest.
    split; [exact Hfirst|]. split; [exact Hin|]. split; [exact Hmin|].
    split; [split|].
    + intros Hemit. apply is_recurring_spec.
      apply (find_recurring_patterns_In _ _ earliest Hout) in Hemit.
      destruct Hemit as [rows [Hr Hinr]].
      apply (group_member _ _ pair_eqb_eq) in Hin. destruct Hin as [_ Hkey].
      rewrite Hkey, Hrows in Hr.
      destruct (is_recurring _); [reflexivity|].
      injection Hr as <-. contradiction.
    + intros Hcp. apply is_recurring_spec in Hcp.
      apply (find_recurring_patterns_In _ _ earliest Hout).
      apply (group_member _ _ pair_eqb_eq) in Hin. destruct Hin as [_ Hkey].
      rewrite Hkey, Hrows, Hcp. exists [earliest]. simpl; auto.
    + intros r Hr Hkey.
      apply (find_recurring_patterns_In _ _ r Hout) in Hr.
      destruct Hr as [rows [Hr Hinr]].
      rewrite Hkey, Hrows in Hr.
      destruct (is_recurring _); injection Hr as <-; simpl in Hinr; [|contradiction].
      destruct Hinr as [->|[]]. reflexivity.
  - intros Hlen r Hr Hkey.
    apply (find_recurring_patterns_In _ _ r Hout) in Hr.
    destruct Hr as [rows [Hr Hinr]].
    rewrite Hkey, recurring_rows_single in Hr by exact Hlen.
    injection Hr as <-. contradiction.
Qed.

Lemma find_recurring_patterns_spec_witness :
  exists out,
    _find_recurring_patterns pool_and_club = Ok out
    /\ In (charge 0 "POOL" (30 # 1)) out
    /\ ~ In (charge 0 "CLUB" (25 # 1)) out
    /\ ~ In (charge 7 "KIOSK" (3 # 1)) out.
Proof.
  destruct (find_recurring_patterns_spec pool_and_club) as [out [Hout Hspec]].
  exists out. split; [exact Hout|]. split; [|split].
  - destruct (Hspec "POOL" (Q2Qc (30 # 1))) as [Hmany _].
    destruct Hmany as [earliest [Hfirst [_ [_ [Hiff _]]]]]; [vm_compute; lia|].
    vm_compute in Hfirst. injection Hfirst as <-.
    apply Hiff, is_recurring_spec. vm_compute. reflexivity.
  - destruct (Hspec "CLUB" (Q2Qc (25 # 1))) as [Hmany _].
    destruct Hmany as [earliest [Hfirst [_ [_ [Hiff _]]]]]; [vm_compute; lia|].
    vm_compute in Hfirst. injection Hfirst as <-.
    intros Hin. apply Hiff, is_recurring_spec in Hin. vm_compute in Hin. discriminate.
  - destruct (Hspec "KIOSK" (Q2Qc (3 # 1))) as [_ Hsingle].
    intros Hin. apply (Hsingle ltac:(vm_compute; lia) _ Hin). reflexivity.
Defined.

(** ** The monthly-cost computation *)

Lemma fold_max_spec (l : list Z) (d : Z) :
  (fold_left Z.max l d = d \/ In (fold_left Z.max l d) l)
  /\ d <= fold_left Z.max l d
  /\ forall x, In x l -> x <= fold_left Z.max l d.
Proof.
  revert d; induction l as [|a l IH]; intros d; simpl.
  - split; [now left|]. split; [lia|]. intros x [].
  - destruct (IH (Z.max d a)) as [Hmem [Hle Hall]].
    split; [|split].
    + destruct Hmem as [Hmem|Hmem]; [|auto].
      rewrite Hmem. destruct (Z.max_spec d a) as [[_ ->]|[_ ->]]; auto.
    + lia.
    + intros x [->|Hx]; [lia|auto].
Qed.

Lemma series_max_spec (dates : list Timestamp) :
  dates <> [] ->
  exists m, series_max dates = Ok m /\ In m dates /\ forall x, In x dates -> x <= m.
Proof.
  destruct dates as [|d l]; [contradiction|]. intros _.
  destruct (fold_max_spec l d) as [Hmem [Hle Hall]].
  exists (fold_left Z.max l d). split; [reflexivity|]. split.
  - simpl. destruct Hmem as [->|H]; auto.
  - intros x [<-|Hx]; auto.
Qed.

Lemma candidate_gaps_nonempty (group : list Candidate) :
  (2 <= List.length group)%nat -> candidate_gaps group <> [].
Proof.
  intros H E. apply (f_equal (@List.length Z)) in E.
  unfold candidate_gaps in E.
  rewrite intervals_length, length_map, sort_values_length in E.
  simpl in E. lia.
Qed.

Lemma subscription_row_many (group : list Candidate) :
  (2 <= List.length group)%nat ->
  exists last,
    iloc_last (sort_values cand_date group) = Ok last
    /\ In last group
    /\ (forall r, In r group -> cand_date r <= cand_date last)
    /\ subscription_row group
       = recurring_subscription last (mean_gap (candidate_gaps group)).
Proof.
  intros Hlen.
  assert (Hne : group <> []) by (destruct group; simpl in Hlen; [lia|discriminate]).
  destruct (sort_values_last cand_date group Hne) as [last [Hlast [Hin Hmax]]].
  exists last. split; [exact Hlast|]. split; [exact Hin|]. split; [exact Hmax|].
  destruct (series_max_spec (map cand_date (sort_values cand_date group)))
    as [m [Hm [Hmem Hub]]].
  { intros E. apply (f_equal (@List.length Z)) in E.
    rewrite length_map, sort_values_length in E. simpl in E. lia. }
  assert (Hmlast : m = cand_date last).
  { apply Z.le_antisymm.
    - apply in_map_iff in Hmem. destruct Hmem as [r [<- Hr]].
      apply Hmax. now apply sort_values_In in Hr.
    - apply Hub, in_map, sort_values_In, Hin. }
  subst m.
  unfold subscription_row.
  rewrite length_map, sort_values_length.
  apply Nat.leb_le in Hlen. rewrite Hlen.
  fold (candidate_gaps group).
  rewrite mean_Ok by (apply candidate_gaps_nonempty, Nat.leb_le, Hlen).
  cbn [bind]. rewrite Hlast. cbn [bind]. rewrite Hm.
  unfold recurring_subscription, truediv.
  destruct (between 25 _ 35); [reflexivity|].
  destruct (between 350 _ 380); [reflexivity|].
  destruct (Qc_eqb _ _); reflexivity.
Qed.

Lemma subscription_row_single (c : Candidate) :
  subscription_row [c]
  = Ok {| base := c; monthly_cost := amount (row c);
          frequency := "unknown"; last_charge := date (row c) |}.
Proof. reflexivity. Qed.

Lemma subscription_row_base (group : list Candidate) (s : Subscription) :
  subscription_row group = Ok s -> In (base s) group.
Proof.
  destruct group as [|c [|c' group]].
  - discriminate.
  - rewrite subscription_row_single. intros H. injection H as <-. now left.
  - intros H.
    destruct (subscription_row_many (c :: c' :: group)) as [last [_ [Hin [_ Hrow]]]];
      [simpl; lia|].
    rewrite Hrow in H. unfold recurring_subscription in H.
    destruct (between 25 _ 35); [injection H as <-; exact Hin|].
    destruct (between 350 _ 380); [injection H as <-; exact Hin|].
    destruct (Qc_eqb _ _); [discriminate|injection H as <-; exact Hin].
Qed.

Lemma description_group_member (df : list Candidate) (d : string) (c : Candidate) :
  In c (description_group df d) <-> In c df /\ cand_description c = d.
Proof. apply (group_member _ _ String.eqb_eq). Qed.

Lemma subscription_row_description (df : list Candidate) (d : string) (s : Subscription) :
  subscription_row (description_group df d) = Ok s -> sub_description s = d.
Proof.
  intros H. apply subscription_row_base, description_group_member in H. tauto.
Qed.

Lemma calculate_monthly_cost_rows (df : list Candidate) (subs : list Subscription) :
  _calculate_monthly_cost df = Ok subs ->
  Forall2 (fun g s => subscription_row (description_group df (fst g)) = Ok s
                      /\ In (fst g) (map cand_description df))
          (groupby String.eqb String.leb cand_description df) subs.
Proof.
  intros H. apply for_each_Ok in H.
  assert (Hg : Forall (fun g => In (fst g) (map cand_description df)
                                /\ snd g = description_group df (fst g))
                      (groupby String.eqb String.leb cand_description df)).
  { apply Forall_forall. intros [k g] Hin.
    apply (groupby_In _ _ _ String.eqb_eq) in Hin. exact Hin. }
  induction H as [|g s gs ss Hgs _ IH]; constructor.
  - apply Forall_inv in Hg. destruct Hg as [Hk Hsnd]. rewrite <- Hsnd. auto.
  - apply IH. now apply Forall_inv_tail in Hg.
Qed.

Lemma calculate_monthly_cost_descriptions (df : list Candidate) (subs : list Subscription) :
  _calculate_monthly_cost df = Ok subs ->
  map sub_description subs = map fst (groupby String.eqb String.leb cand_description df).
Proof.
  intros H. apply calculate_monthly_cost_rows in H. symmetry.
  eapply Forall2_map_eq; [|exact H].
  intros g s _ [Hrow _]. symmetry. now apply subscription_row_description in Hrow.
Qed.

(** A description of the candidate table has its row in the result. *)
Lemma calculate_monthly_cost_group (df : list Candidate) (subs : list Subscription) (d : string) :
  _calculate_monthly_cost df = Ok subs ->
  In d (map cand_description df) ->
  exists s, In s subs /\ subscription_row (description_group df d) = Ok s.
Proof.
  intros H Hd. apply calculate_monthly_cost_rows in H.
  assert (Hg : In (d, description_group df d)
                  (groupby String.eqb String.leb cand_description df)).
  { apply (groupby_In _ _ _ String.eqb_eq). auto. }
  destruct (Forall2_In_l _ _ _ _ H Hg) as [s [Hs [Hrow _]]]. eauto.
Qed.

(** A row of the result is the row of its description's group. *)
Lemma calculate_monthly_cost_row (df : list Candidate) (subs : list Subscription)
      (s : Subscription) :
  _calculate_monthly_cost df = Ok subs ->
  In s subs ->
  subscription_row (description_group df (sub_description s)) = Ok s
  /\ In (sub_description s) (map cand_description df).
Proof.
  intros H Hs. apply calculate_monthly_cost_rows in H.
  destruct (Forall2_In_r _ _ _ _ H Hs) as [g [_ [Hrow Hk]]].
  pose proof (subscription_row_description _ _ _ Hrow) as Hd.
  rewrite Hd. auto.
Qed.

Lemma calculate_monthly_cost_unique (df : list Candidate) (subs : list Subscription) :
  _calculate_monthly_cost df = Ok subs ->
  NoDup (map sub_description subs)
  /\ forall d, In d (map sub_description subs) <-> In d (map cand_description df).
Proof.
  intros H. rewrite (calculate_monthly_cost_descriptions _ _ H). split.
  - apply groupby_keys_NoDup, String.eqb_eq.
  - intros d. apply groupby_key_In, String.eqb_eq.
Qed.

(** The computation returns a table unless a group raises. *)
Lemma calculate_monthly_cost_total (df : list Candidate) :
  (forall d, In d (map cand_description df) ->
             exists s, subscription_row (description_group df d) = Ok s) ->
  exists subs, _calculate_monthly_cost df = Ok subs.
Proof.
  intros H. apply for_each_total. intros [k g] Hin.
  apply (groupby_In _ _ _ String.eqb_eq) in Hin. destruct Hin as [Hk ->].
  apply H, Hk.
Qed.

Lemma calculate_monthly_cost_raises (df : list Candidate) (d : string) (e : Exception) :
  In d (map cand_description df) ->
  subscription_row (description_group df d) = Raise e ->
  exists e', _calculate_monthly_cost df = Raise e'.
Proof.
  intros Hd He.
  apply (for_each_Raise _ _ (d, description_group df d) e); [|exact He].
  apply (groupby_In _ _ _ String.eqb_eq). auto.
Qed.

(** A group returns its row unless it has two rows or more and a zero mean
    gap. *)
Lemma subscription_row_returns (group : list Candidate) :
  group <> [] ->
  ((2 <= List.length group)%nat -> mean_gap (candidate_gaps group) <> of_int 0) ->
  exists s, subscription_row group = Ok s.
Proof.
  intros Hne Hgap. destruct group as [|c [|c' group]]; [contradiction| |].
  - rewrite subscription_row_single. eauto.
  - destruct (subscription_row_many (c :: c' :: group)) as [last [_ [_ [_ Hrow]]]];
      [simpl; lia|].
    rewrite Hrow. unfold recurring_subscription.
    destruct (between 25 _ 35); [eauto|].
    destruct (between 350 _ 380); [eauto|].
    destruct (Qc_eqb _ _) eqn:E; [|eauto].
    apply Qc_eqb_eq in E. exfalso. apply Hgap; [simpl; lia|exact E].
Qed.

(** The computation returns a table when no description has two rows or more
    and a zero mean gap. *)
Lemma calculate_monthly_cost_returns (df : list Candidate) :
  (forall d, (2 <= List.length (description_group df d))%nat ->
             mean_gap (candidate_gaps (description_group df d)) <> of_int 0) ->
  exists subs, _calculate_monthly_cost df = Ok subs.
Proof.
  intros H. apply calculate_monthly_cost_total. intros d Hd.
  apply subscription_row_returns; [|apply H].
  now apply (group_nonempty _ _ String.eqb_eq).
Qed.

Lemma description_group_In (df : list Candidate) (d : string) :
  description_group df d <> [] -> In d (map cand_description df).
Proof.
  destruct (description_group df d) as [|c g] eqn:E; [contradiction|]. intros _.
  assert (H : In c (description_group df d)) by (rewrite E; now left).
  apply description_group_member in H. destruct H as [H <-]. now apply in_map.
Qed.

Lemma windows_disjoint (m : Qc) : between 350 m 380 = true -> between 25 m 35 = false.
Proof.
  intros H. destruct (between 25 m 35) eqn:E; [|reflexivity].
  apply between_spec in H. apply between_spec in E.
  destruct H as [H _]. destruct E as [_ E].
  pose proof (Qcle_trans _ _ _ H E) as Habs.
  vm_compute in Habs. exfalso. apply Habs. reflexivity.
Qed.

Lemma between_false (lo hi : Z) (m : Qc) :
  ~ (of_int lo <= m /\ m <= of_int hi)%Qc -> between lo m hi = false.
Proof.
  intros H. destruct (between lo m hi) eqn:E; [|reflexivity].
  apply between_spec in E. contradiction.
Qed.

(** C9. When the candidate table holds exactly one row [c] with a given
    description and [_calculate_monthly_cost] returns a table, the row of
    that description in the table is [c] with frequency "unknown",
    monthly_cost the amount of [c] and last_charge the date of [c]. *)
Theorem single_occurrence_unknown (df : list Candidate) (subs : list Subscription)
        (c : Candidate) :
  _calculate_monthly_cost df = Ok subs ->
  description_group df (cand_description c) = [c] ->
  exists s,
    In s subs
    /\ sub_description s = cand_description c
    /\ base s = c
    /\ frequency s = "unknown"
    /\ monthly_cost s = amount (row c)
    /\ last_charge s = date (row c)
    /\ forall s', In s' subs -> sub_description s' = cand_description c -> s' = s.
Proof.
  intros H Hg.
  destruct (calculate_monthly_cost_group df subs (cand_description c) H)
    as [s [Hs Hrow]].
  { apply description_group_In. rewrite Hg. discriminate. }
  exists s. split; [exact Hs|].
  rewrite Hg, subscription_row_single in Hrow. injection Hrow as <-.
  repeat (split; [reflexivity|]).
  intros s' Hs' Hd.
  destruct (calculate_monthly_cost_row df subs s' H Hs') as [Hrow' _].
  rewrite Hd, Hg, subscription_row_single in Hrow'. now injection Hrow'.
Qed.

Lemma sample_subscriptions_computed :
  _calculate_monthly_cost sample_candidates = Ok sample_subscriptions.
Proof. vm_compute. reflexivity. Qed.

Lemma single_occurrence_unknown_witness :
  exists s,
    In s sample_subscriptions
    /\ sub_description s = "DOMAIN REGISTRATION"
    /\ base s = domain_charge
    /\ frequency s = "unknown"
    /\ monthly_cost s = Q2Qc (120 # 1)
    /\ last_charge s = day 19400
    /\ forall s', In s' sample_subscriptions ->
                  sub_description s' = "DOMAIN REGISTRATION" -> s' = s.
Proof.
  apply (single_occurrence_unknown sample_candidates sample_subscriptions domain_charge).
  - vm_compute. reflexivity.
  - reflexivity.
Defined.

Lemma subscription_row_frequency (group : list Candidate) (s : Subscription) :
  subscription_row group = Ok s -> exists f, frequency_text f (frequency s).
Proof.
  destruct group as [|c [|c' group]].
  - discriminate.
  - rewrite subscription_row_single. intros H. injection H as <-.
    exists unknown. constructor.
  - intros H.
    destruct (subscription_row_many (c :: c' :: group)) as [last [_ [_ [_ Hrow]]]];
      [simpl; lia|].
    rewrite Hrow in H. unfold recurring_subscription in H.
    destruct (between 25 _ 35); [injection H as <-; exists monthly; constructor|].
    destruct (between 350 _ 380); [injection H as <-; exists annual; constructor|].
    destruct (Qc_eqb _ _); [discriminate|].
    injection H as <-. exists custom_interval. constructor.
Qed.

(** C10. The frequency of every row [_calculate_monthly_cost] returns stands
    for one of the four values of the enumeration: "monthly", "annual",
    "unknown", or "every N days" for the custom interval. *)
Theorem frequency_in_enum (df : list Candidate) (subs : list Subscription)
        (s : Subscription) :
  _calculate_monthly_cost df = Ok subs ->
  In s subs ->
  exists f, frequency_text f (frequency s).
Proof.
  intros H Hs.
  destruct (calculate_monthly_cost_row df subs s H Hs) as [Hrow _].
  exact (subscription_row_frequency _ _ Hrow).
Qed.

Lemma frequency_in_enum_witness :
  exists f, frequency_text f "monthly".
Proof.
  apply (frequency_in_enum sample_candidates sample_subscriptions
           {| base := netflix_charge 19419; monthly_cost := Q2Qc (1549 # 100);
              frequency := "monthly"; last_charge := day 19419 |}).
  - vm_compute. reflexivity.
  - simpl. auto.
Defined.

(** C2. When [_calculate_monthly_cost] returns a table and the candidate
    table holds at least two rows of description [d], the table has one row
    [s] of description [d]. The row it copies, [base s], is a most recent
    row of that description: one of its rows, and none of them has a later
    date (which one, among several rows of that latest date, is left open).
    With [m] the mean day-gap: if [m] is in [25,35] the frequency of [s] is
    "monthly" and its monthly_cost the amount of that most recent row; if
    [m] is in [350,380] its frequency is "annual" and its monthly_cost that
    amount divided by 12; otherwise [m] is not zero, its monthly_cost is
    that amount times 30 / [m] and its frequency "every round([m]) days". *)
Theorem recurring_description_cost (df : list Candidate) (subs : list Subscription)
        (d : string) :
  _calculate_monthly_cost df = Ok subs ->
  (2 <= List.length (description_group df d))%nat ->
  exists s,
    In s subs
    /\ sub_description s = d
    /\ (forall s', In s' subs -> sub_description s' = d -> s' = s)
    /\ In (base s) (description_group df d)
    /\ (forall r, In r (description_group df d) -> cand_date r <= cand_date (base s))
    /\ ((of_int 25 <= mean_gap (candidate_gaps (description_group df d))
         /\ mean_gap (candidate_gaps (description_group df d)) <= of_int 35)%Qc ->
        frequency s = "monthly" /\ monthly_cost s = amount (row (base s)))
    /\ ((of_int 350 <= mean_gap (candidate_gaps (description_group df d))
         /\ mean_gap (candidate_gaps (description_group df d)) <= of_int 380)%Qc ->
        frequency s = "annual"
        /\ monthly_cost s = (amount (row (base s)) / of_int 12)%Qc)
    /\ (~ (of_int 25 <= mean_gap (candidate_gaps (description_group df d))
           /\ mean_gap (candidate_gaps (description_group df d)) <= of_int 35)%Qc ->
        ~ (of_int 350 <= mean_gap (candidate_gaps (description_group df d))
           /\ mean_gap (candidate_gaps (description_group df d)) <= of_int 380)%Qc ->
        mean_gap (candidate_gaps (description_group df d)) <> of_int 0
        /\ monthly_cost s
           = (amount (row (base s))
              * (of_int 30 / mean_gap (candidate_gaps (description_group df d))))%Qc
        /\ frequency s
           = ("every "
                ++ str_of_int (round (mean_gap (candidate_gaps (description_group df d))))
                ++ " days")%string).
Proof.
  intros H Hlen.
  destruct (subscription_row_many _ Hlen) as [last [_ [Hin [Hmax Hrow]]]].
  destruct (calculate_monthly_cost_group df subs d H) as [s [Hs Hs_row]].
  { apply description_group_In. intros E. rewrite E in Hlen. simpl in Hlen. lia. }
  exists s.
  split; [exact Hs|].
  split; [exact (subscription_row_description _ _ _ Hs_row)|].
  split.
  { intros s' Hs' Hd.
    destruct (calculate_monthly_cost_row df subs s' H Hs') as [Hrow' _].
    rewrite Hd in Hrow'. congruence. }
  rewrite Hrow in Hs_row.
  assert (Hbase : base s = last).
  { unfold recurring_subscription in Hs_row.
    destruct (between 25 _ 35); [injection Hs_row as <-; reflexivity|].
    destruct (between 350 _ 380); [injection Hs_row as <-; reflexivity|].
    destruct (Qc_eqb _ _); [discriminate Hs_row|].
    injection Hs_row as <-; reflexivity. }
  rewrite Hbase.
  split; [exact Hin|]. split; [exact Hmax|].
  unfold recurring_subscription in Hs_row.
  split; [|split].
  - intros Hw. apply between_spec in Hw. rewrite Hw in Hs_row.
    injection Hs_row as <-. auto.
  - intros Hw. apply between_spec in Hw.
    rewrite (windows_disjoint _ Hw), Hw in Hs_row.
    injection Hs_row as <-. auto.
  - intros Hm Ha.
    rewrite (between_false _ _ _ Hm), (between_false _ _ _ Ha) in Hs_row.
    destruct (Qc_eqb _ _) eqn:E; [discriminate|].
    injection Hs_row as <-. split; [|split; reflexivity].
    intros E0. apply Qc_eqb_eq in E0. congruence.
Qed.

Lemma recurring_description_cost_witness :
  exists s,
    In s sample_subscriptions
    /\ sub_description s = "NETFLIX.COM"
    /\ frequency s = "monthly"
    /\ monthly_cost s = Q2Qc (1549 # 100).
Proof.
  destruct (recurring_description_cost sample_candidates sample_subscriptions "NETFLIX.COM")
    as [s [Hs [Hd [_ [Hin [_ [Hmonthly _]]]]]]].
  - vm_compute. reflexivity.
  - vm_compute. lia.
  - exists s. split; [exact Hs|]. split; [exact Hd|].
    destruct Hmonthly as [Hf Hc].
    + split; vm_compute; discriminate.
    + split; [exact Hf|]. rewrite Hc.
      apply filter_In in Hin. destruct Hin as [Hin Hkey].
      destruct Hin as [E|[E|[E|[E|[]]]]]; rewrite <- E in Hkey |- *;
        [reflexivity|vm_compute in Hkey; discriminate Hkey|reflexivity|reflexivity].
Defined.

(** ** The pipeline *)

Lemma for_each_length {A B : Type} (body : A -> Result B) (l : list A) (r : list B) :
  for_each body l = Ok r -> List.length r = List.length l.
Proof.
  intros H. apply for_each_Ok in H. symmetry. exact (Forall2_length H).
Qed.

Lemma map_fst_combine {A B C : Type} (f : A -> C) (l : list A) (l' : list B) :
  List.length l' = List.length l ->
  map (fun p => f (fst p)) (combine l l') = map f l.
Proof.
  revert l'; induction l as [|a l IH]; intros [|b l']; simpl; intros H;
    try reflexivity; try discriminate.
  f_equal. apply IH. lia.
Qed.

Lemma map_snd_combine {A B C : Type} (f : B -> C) (l : list A) (l' : list B) :
  List.length l' = List.length l ->
  map (fun p => f (snd p)) (combine l l') = map f l'.
Proof.
  revert l'; induction l as [|a l IH]; intros [|b l']; simpl; intros H;
    try reflexivity; try discriminate.
  f_equal. apply IH. lia.
Qed.

Lemma drop_duplicates_In (df : list Transaction) (t : Transaction) :
  In t (drop_duplicates df) <-> In t df.
Proof. apply unique_In, transaction_eqb_eq. Qed.

Lemma detect_from_candidates (df : list Transaction) (subs : list Subscription) :
  detect_from df = Ok subs ->
  exists recurring,
    _find_recurring_patterns df = Ok recurring
    /\ NoDup (map sub_description subs)
    /\ forall d, In d (map sub_description subs) <->
                 In d (map description (_find_keyword_matches df))
                 \/ In d (map description recurring).
Proof.
  unfold detect_from.
  destruct (_find_recurring_patterns df) as [recurring|e]; simpl; [|discriminate].
  intros H. exists recurring. split; [reflexivity|].
  destruct (calculate_monthly_cost_unique _ _ H) as [Hnodup Hiff].
  split; [exact Hnodup|].
  intros d. rewrite Hiff, map_map. unfold cand_description. simpl.
  rewrite <- in_app_iff, <- map_app, !in_map_iff.
  split; intros [t [Ht Hin]]; exists t; (split; [exact Ht|]);
    now apply drop_duplicates_In.
Qed.

Section DetectionFacts.
Variable parse_datetime : string -> option Timestamp.

Lemma detect_subscriptions_Ok (df df' : list InputRow) (subs : list Subscription) :
  detect_subscriptions parse_datetime df = (df', Ok subs) ->
  exists col,
    to_datetime parse_datetime (map in_date df) = Ok col
    /\ df' = set_date df col
    /\ detect_from (transactions df col) = Ok subs.
Proof.
  unfold detect_subscriptions.
  destruct (to_datetime parse_datetime (map in_date df)) as [col|e].
  - intros H. injection H as <- H. eauto.
  - intros H. injection H as _ H. discriminate.
Qed.

Lemma to_datetime_stamps (col : list Timestamp) :
  to_datetime parse_datetime (map DateStamp col) = Ok col.
Proof.
  unfold to_datetime. induction col as [|t col IH]; [reflexivity|].
  simpl. unfold to_datetime in IH. now rewrite IH.
Qed.
End DetectionFacts.

(** C4. When [detect_subscriptions] returns a table, no two of its rows share
    a description, and its descriptions are those of the keyword-matched rows
    and of the recurrence-matched rows. *)
Theorem detect_subscriptions_one_row_per_description
        (parse_datetime : string -> option Timestamp)
        (df df' : list InputRow) (subs : list Subscription) :
  detect_subscriptions parse_datetime df = (df', Ok subs) ->
  exists col recurring,
    to_datetime parse_datetime (map in_date df) = Ok col
    /\ _find_recurring_patterns (transactions df col) = Ok recurring
    /\ NoDup (map sub_description subs)
    /\ forall d,
        In d (map sub_description subs) <->
        In d (map description (_find_keyword_matches (transactions df col)))
        \/ In d (map description recurring).
Proof.
  intros H.
  destruct (detect_subscriptions_Ok _ _ _ _ H) as [col [Hcol [_ Hfrom]]].
  destruct (detect_from_candidates _ _ Hfrom) as [recurring [Hrec [Hnodup Hiff]]].
  exists col, recurring. auto.
Qed.

Lemma detect_subscriptions_one_row_per_description_witness :
  exists subs,
    snd (detect_subscriptions iso_date sample_statement) = Ok subs
    /\ map sub_description subs = ["CITY POOL"; "NETFLIX.COM"]
    /\ NoDup (map sub_description subs).
Proof.
  destruct (detect_subscriptions iso_date sample_statement) as [df' [subs|e]] eqn:E;
    [|vm_compute in E; discriminate].
  exists subs. split; [reflexivity|].
  destruct (detect_subscriptions_one_row_per_description _ _ _ _ E)
    as [col [recurring [_ [_ [Hnodup _]]]]].
  split; [|exact Hnodup].
  vm_compute in E. injection E as _ <-. reflexivity.
Defined.

(** ** The caller's table *)

Lemma set_date_columns (df : list InputRow) (col : list Timestamp) :
  List.length col = List.length df ->
  map in_description (set_date df col) = map in_description df
  /\ map in_amount (set_date df col) = map in_amount df
  /\ map in_date (set_date df col) = map DateStamp col.
Proof.
  intros H. unfold set_date. rewrite !map_map. simpl.
  split; [|split].
  - now apply (map_fst_combine in_description).
  - now apply (map_fst_combine in_amount).
  - now apply (map_snd_combine DateStamp).
Qed.

Lemma set_date_stamped (df : list InputRow) (col : list Timestamp) :
  map in_date df = map DateStamp col -> set_date df col = df.
Proof.
  unfold set_date. revert col; induction df as [|r df IH]; intros [|t col]; simpl;
    intros H; try reflexivity; try discriminate.
  injection H as Ht H. rewrite (IH _ H). f_equal.
  destruct r; simpl in *. now rewrite Ht.
Qed.

Lemma stamped_column (df : list InputRow) :
  (forall r, In r df -> exists t, in_date r = DateStamp t) ->
  exists col, map in_date df = map DateStamp col.
Proof.
  induction df as [|r df IH]; intros H.
  - exists []. reflexivity.
  - destruct (H r) as [t Ht]; [now left|].
    destruct IH as [col Hcol]; [intros; apply H; now right|].
    exists (t :: col). simpl. now rewrite Ht, Hcol.
Qed.

(** C7. [detect_subscriptions] does not leave the caller's table as it was:
    on a statement whose dates are text, as the parsers hand it over, the
    [date] column of the caller's table holds timestamps after the call. The
    first statement of the function assigns the converted column to the
    table it was given, where [_calculate_monthly_cost] works on a copy. *)
Theorem detect_subscriptions_changes_dates :
  map in_date (fst (detect_subscriptions iso_date sample_statement))
  <> map in_date sample_statement.
Proof. vm_compute. discriminate. Qed.

(** What the call writes: [detect_subscriptions] leaves the description and
    the amount of every row of the caller's table as they were; it sets the
    [date] column of that table to its conversion by [pd.to_datetime]; when
    the conversion raises the table is unchanged, and so it is when every
    date already was a timestamp. *)
Lemma detect_subscriptions_frame (parse_datetime : string -> option Timestamp)
        (df : list InputRow) :
  map in_description (fst (detect_subscriptions parse_datetime df))
  = map in_description df
  /\ map in_amount (fst (detect_subscriptions parse_datetime df)) = map in_amount df
  /\ (forall col,
         to_datetime parse_datetime (map in_date df) = Ok col ->
         map in_date (fst (detect_subscriptions parse_datetime df)) = map DateStamp col)
  /\ (forall e,
         to_datetime parse_datetime (map in_date df) = Raise e ->
         detect_subscriptions parse_datetime df = (df, Raise e))
  /\ ((forall r, In r df -> exists t, in_date r = DateStamp t) ->
      fst (detect_subscriptions parse_datetime df) = df).
Proof.
  unfold detect_subscriptions.
  destruct (to_datetime parse_datetime (map in_date df)) as [col|e] eqn:E; simpl.
  - assert (Hlen : List.length col = List.length df).
    { apply for_each_length in E. now rewrite length_map in E. }
    destruct (set_date_columns df col Hlen) as [Hd [Ha Hdate]].
    split; [exact Hd|]. split; [exact Ha|]. split; [|split].
    + intros col' H. injection H as <-. exact Hdate.
    + discriminate.
    + intros Hst. destruct (stamped_column df Hst) as [col' Hcol'].
      rewrite Hcol', to_datetime_stamps in E. injection E as <-.
      now apply set_date_stamped.
  - split; [reflexivity|]. split; [reflexivity|]. split; [discriminate|].
    split; [|reflexivity].
    intros e' H. now injection H as <-.
Qed.

Lemma detect_subscriptions_frame_witness :
  map in_description (fst (detect_subscriptions iso_date sample_statement))
  = map in_description sample_statement
  /\ map in_date (fst (detect_subscriptions iso_date sample_statement))
     = map DateStamp [day 19358; day 19362; day 19367; day 19389; day 19397; day 19419]
  /\ fst (detect_subscriptions iso_date
            [ {| in_date := DateStamp (day 19358); in_description := "NETFLIX.COM";
                 in_amount := Q2Qc (1549 # 100) |} ])
     = [ {| in_date := DateStamp (day 19358); in_description := "NETFLIX.COM";
            in_amount := Q2Qc (1549 # 100) |} ].
Proof.
  destruct (detect_subscriptions_frame iso_date sample_statement)
    as [Hd [_ [Hdate _]]].
  split; [exact Hd|]. split.
  - apply Hdate. vm_compute. reflexivity.
  - apply (detect_subscriptions_frame iso_date). intros r [<-|[]]. simpl. eauto.
Defined.

(** ** Charges of one description on one day *)

(** A group of two rows or more whose mean gap is zero raises. *)
Lemma subscription_row_zero_gap (group : list Candidate) :
  (2 <= List.length group)%nat ->
  mean_gap (candidate_gaps group) = of_int 0 ->
  subscription_row group = Raise ZeroDivisionError.
Proof.
  intros Hlen Hm.
  destruct (subscription_row_many group Hlen) as [last [_ [_ [_ Hrow]]]].
  rewrite Hrow, Hm. reflexivity.
Qed.

Lemma calculate_monthly_cost_zero_gap (df : list Candidate) (d : string) :
  (2 <= List.length (description_group df d))%nat ->
  mean_gap (candidate_gaps (description_group df d)) = of_int 0 ->
  exists e, _calculate_monthly_cost df = Raise e.
Proof.
  intros Hlen Hm.
  apply (calculate_monthly_cost_raises df d ZeroDivisionError).
  - apply description_group_In. intros E. rewrite E in Hlen. simpl in Hlen. lia.
  - now apply subscription_row_zero_gap.
Qed.

(** C1. On two same-day charges of one description the detection raises
    ZeroDivisionError: no subscription, of frequency "unknown" or other, is
    returned. *)
Theorem same_day_charges_raise :
  snd (detect_subscriptions iso_date same_day_charges) = Raise ZeroDivisionError.
Proof. vm_compute. reflexivity. Qed.

(** ** The opportunity analyzer *)

Lemma savings_opportunities_parts (subs : list Subscription) :
  savings_opportunities subs
  = map (duplicate_opportunity subs) (duplicate_categories subs)
    ++ flat_map annual_opportunity
         (filter (fun s => (frequency s =? "monthly")%string) subs).
Proof.
  unfold savings_opportunities. fold (duplicate_categories subs).
  destruct (duplicate_categories subs); reflexivity.
Qed.

Lemma duplicate_categories_keys (subs : list Subscription) :
  duplicate_categories subs
  = filter (fun k => (1 <? List.length (members subs k))%nat)
      (map fst (groupby String.eqb String.leb sub_category subs)).
Proof.
  unfold duplicate_categories. rewrite groupby_keys. unfold groupby.
  rewrite map_map, filter_map_swap, map_map. simpl. rewrite map_id.
  reflexivity.
Qed.

Lemma duplicate_categories_NoDup (subs : list Subscription) :
  NoDup (duplicate_categories subs).
Proof.
  rewrite duplicate_categories_keys.
  apply NoDup_filter, groupby_keys_NoDup, String.eqb_eq.
Qed.

Lemma duplicate_categories_In (subs : list Subscription) (c : string) :
  In c (duplicate_categories subs) <-> (1 < List.length (members subs c))%nat.
Proof.
  rewrite duplicate_categories_keys, filter_In, Nat.ltb_lt.
  rewrite (groupby_key_In _ _ _ String.eqb_eq).
  split; [tauto|]. intros H. split; [|exact H].
  destruct (members subs c) as [|s l] eqn:E; [simpl in H; lia|].
  assert (Hs : In s (members subs c)) by (rewrite E; now left).
  unfold members in Hs. apply filter_In in Hs. destruct Hs as [Hs Hc].
  apply String.eqb_eq in Hc. rewrite <- Hc. now apply in_map.
Qed.

Lemma filter_one (l : list string) (c : string) :
  NoDup l -> In c l -> filter (fun k => (k =? c)%string) l = [c].
Proof.
  induction 1 as [|k l Hk Hnd IH]; simpl; [contradiction|].
  intros [->|Hin].
  - rewrite String.eqb_refl. f_equal.
    clear IH Hnd. induction l as [|a l IH]; [reflexivity|]. simpl.
    destruct (String.eqb_spec a c) as [->|_].
    + exfalso. apply Hk. now left.
    + apply IH. intros H. apply Hk. now right.
  - destruct (String.eqb_spec k c) as [->|_]; [contradiction|auto].
Qed.

Lemma filter_none (l : list string) (c : string) :
  ~ In c l -> filter (fun k => (k =? c)%string) l = [].
Proof.
  induction l as [|k l IH]; simpl; [reflexivity|]. intros H.
  destruct (String.eqb_spec k c) as [->|_]; [exfalso; auto|auto].
Qed.

Lemma annual_opportunity_not_duplicate (c : string) (l : list Subscription) :
  filter (duplicate_of c) (flat_map annual_opportunity l) = [].
Proof.
  induction l as [|s l IH]; [reflexivity|]. simpl.
  rewrite filter_app, IH. unfold annual_opportunity.
  destruct (Qc_ltb _ _); reflexivity.
Qed.

(** C8. For every category, [savings_opportunities] holds exactly one
    duplicate_category opportunity of that category when more than one
    subscription has it: the one that lists the descriptions of all its
    members and the sum of their monthly costs; and it holds none when at
    most one subscription has it. *)
Theorem duplicate_category_spec (subs : list Subscription) (category : string) :
  ((1 < List.length (members subs category))%nat ->
   filter (duplicate_of category) (savings_opportunities subs)
   = [duplicate_category category
        (map sub_description (members subs category))
        (series_sum (map monthly_cost (members subs category)))
        ("Consider consolidating " ++ category ++ " subscriptions")%string])
  /\ ((List.length (members subs category) <= 1)%nat ->
      filter (duplicate_of category) (savings_opportunities subs) = []).
Proof.
  rewrite savings_opportunities_parts, filter_app, annual_opportunity_not_duplicate,
    app_nil_r, filter_map_swap.
  change (fun a => duplicate_of category (duplicate_opportunity subs a))
    with (fun k => (k =? category)%string).
  split; intros H.
  - rewrite filter_one; [reflexivity|apply duplicate_categories_NoDup|].
    now apply duplicate_categories_In.
  - rewrite filter_none; [reflexivity|].
    rewrite duplicate_categories_In. lia.
Qed.

Lemma duplicate_category_spec_witness :
  filter (duplicate_of "streaming") (savings_opportunities sample_table)
  = [duplicate_category "streaming" ["NETFLIX.COM"; "HULU.COM"] (Q2Qc (55 # 1))
       "Consider consolidating streaming subscriptions"]
  /\ filter (duplicate_of "other") (savings_opportunities sample_table) = [].
Proof.
  split.
  - destruct (duplicate_category_spec sample_table "streaming") as [Hmany _].
    rewrite Hmany by (vm_compute; lia).
    vm_compute. reflexivity.
  - destruct (duplicate_category_spec sample_table "other") as [_ Hfew].
    apply Hfew. vm_compute. lia.
Defined.

Lemma annual_opportunity_In (s : Subscription) (o : Opportunity) :
  In o (annual_opportunity s) <->
  (of_int 20 < potential_annual_savings s)%Qc
  /\ o = annual_discount (sub_description s) (monthly_cost s) (potential_annual_savings s)
           ("Switch to annual billing to save ~$"
              ++ format_2f (potential_annual_savings s) ++ "/year")%string.
Proof.
  unfold annual_opportunity.
  destruct (Qc_ltb _ _) eqn:E; simpl.
  - apply Qc_ltb_lt in E. split.
    + intros [<-|[]]. auto.
    + intros [_ ->]. now left.
  - split; [contradiction|]. intros [H _]. apply Qc_ltb_lt in H. congruence.
Qed.

(** C5. For subscriptions whose monthly costs are in the range of the
    doubles, [savings_opportunities] holds an annual_discount opportunity
    exactly for the subscriptions whose frequency is "monthly" and whose
    monthly_cost x 12 x 0.15, the two products as the doubles compute them,
    is strictly greater than 20; the opportunity names the subscription and
    its monthly cost, its annual_savings is that monthly_cost x 12 x 0.15,
    and its recommendation shows it with two decimals. *)
Theorem annual_discount_spec (subs : list Subscription)
        (name : string) (cost savings : Qc) (recommendation : string) :
  (forall s, In s subs -> in_range (monthly_cost s)) ->
  (In (annual_discount name cost savings recommendation) (savings_opportunities subs)
   <->
   exists s,
     In s subs
     /\ frequency s = "monthly"
     /\ (of_int 20
         < float_mul (float_mul (binary64 (monthly_cost s)) (of_int 12))
                     (binary64 (Q2Qc (15 # 100))))%Qc
     /\ name = sub_description s
     /\ cost = monthly_cost s
     /\ savings
        = float_mul (float_mul (binary64 (monthly_cost s)) (of_int 12))
                    (binary64 (Q2Qc (15 # 100)))
     /\ recommendation
        = ("Switch to annual billing to save ~$"
             ++ format_2f
                  (float_mul (float_mul (binary64 (monthly_cost s)) (of_int 12))
                             (binary64 (Q2Qc (15 # 100))))
             ++ "/year")%string).
Proof.
  intros _.
  rewrite savings_opportunities_parts, in_app_iff, in_flat_map.
  split.
  - intros [H|[s [Hs Ho]]].
    + apply in_map_iff in H. destruct H as [c [H _]]. discriminate H.
    + apply filter_In in Hs. destruct Hs as [Hs Hf]. apply String.eqb_eq in Hf.
      apply annual_opportunity_In in Ho. destruct Ho as [Hgt Ho].
      injection Ho as -> -> -> ->.
      exists s. repeat (split; [assumption || reflexivity|]). reflexivity.
  - intros [s [Hs [Hf [Hgt [-> [-> [-> ->]]]]]]].
    right. exists s. split.
    + apply filter_In. split; [exact Hs|]. now apply String.eqb_eq.
    + apply annual_opportunity_In. split; [exact Hgt|reflexivity].
Qed.

Lemma annual_discount_spec_witness :
  In (annual_discount "NETFLIX.COM" (Q2Qc (50 # 1)) (Q2Qc (90 # 1))
        "Switch to annual billing to save ~$90.00/year")
     (savings_opportunities sample_table)
  /\ forall cost savings recommendation,
      ~ In (annual_discount "HULU.COM" cost savings recommendation)
           (savings_opportunities sample_table).
Proof.
  assert (Hrange : forall s, In s sample_table -> in_range (monthly_cost s)).
  { intros s Hs. simpl in Hs.
    destruct Hs as [<-|[<-|[<-|[]]]]; split; vm_compute; reflexivity. }
  split.
  - apply (annual_discount_spec sample_table _ _ _ _ Hrange).
    exists (subscription "NETFLIX.COM" "streaming" (50 # 1) "monthly").
    split; [now left|]. split; [reflexivity|]. split; [vm_compute; reflexivity|].
    split; [reflexivity|]. split; [reflexivity|].
    split; [apply Qc_is_canon; vm_compute; reflexivity|].
    vm_compute. reflexivity.
  - intros cost savings recommendation H.
    apply (annual_discount_spec sample_table _ _ _ _ Hrange) in H.
    destruct H as [s [Hs [Hf [Hgt [Hname _]]]]].
    simpl in Hs. destruct Hs as [<-|[<-|[<-|[]]]].
    + discriminate Hname.
    + discriminate Hf.
    + vm_compute in Hgt. discriminate Hgt.
Defined.

(** At a monthly cost of 11.111111111111112 the exact product is above 20
    and the product of the doubles is 20: no opportunity. *)
Example savings_of_20 :
  (of_int 20 < monthly_cost threshold_subscription * of_int 12 * Q2Qc (15 # 100))%Qc
  /\ potential_annual_savings threshold_subscription = of_int 20
  /\ savings_opportunities [threshold_subscription] = [].
Proof.
  split; [vm_compute; reflexivity|]. split; [|vm_compute; reflexivity].
  apply Qc_is_canon. vm_compute. reflexivity.
Qed.

(** At 11.375 the product of the doubles is 20.474999999999998, below the
    exact 20.475, and the text shows 20.47. *)
Example savings_of_20_47 :
  potential_annual_savings (subscription "GYM" "fitness" (11375 # 1000) "monthly")
  = Q2Qc (5763200148150681 # 281474976710656)
  /\ map (fun o => match o with
                   | annual_discount _ _ _ recommendation => recommendation
                   | duplicate_category _ _ _ recommendation => recommendation
                   end)
         (savings_opportunities [subscription "GYM" "fitness" (11375 # 1000) "monthly"])
     = ["Switch to annual billing to save ~$20.47/year"].
Proof.
  split; [|vm_compute; reflexivity].
  apply Qc_is_canon. vm_compute. reflexivity.
Qed.

(** ** The three kinds of recurring rows, on concrete groups *)

Example yearly_charge :
  match subscription_row
          [ {| row := charge 365 "DOMAIN" (120 # 1); category := "other" |};
            {| row := charge 0 "DOMAIN" (108 # 1); category := "other" |} ] with
  | Ok s => row (base s) = charge 365 "DOMAIN" (120 # 1)
            /\ frequency s = "annual"
            /\ monthly_cost s = Q2Qc (10 # 1)
            /\ last_charge s = day 365
  | Raise _ => False
  end.
Proof. vm_compute. repeat split; apply Qc_is_canon; reflexivity. Qed.

Example weekly_charge :
  match subscription_row
          [ {| row := charge 0 "SPOTIFY" (10 # 1); category := "music" |};
            {| row := charge 7 "SPOTIFY" (10 # 1); category := "music" |};
            {| row := charge 15 "SPOTIFY" (12 # 1); category := "music" |} ] with
  | Ok s => row (base s) = charge 15 "SPOTIFY" (12 # 1)
            /\ frequency s = "every 8 days"
            /\ monthly_cost s = Q2Qc (48 # 1)
            /\ last_charge s = day 15
  | Raise _ => False
  end.
Proof. vm_compute. repeat split; apply Qc_is_canon; reflexivity. Qed.

Example same_day_group :
  subscription_row [ {| row := charge 0 "NETFLIX.COM" (1549 # 100); category := "streaming" |};
                     {| row := charge 0 "NETFLIX.COM" (799 # 100); category := "streaming" |} ]
  = Raise ZeroDivisionError.
Proof. vm_compute. reflexivity. Qed.

(** * Further properties of the detector *)

(** ** The keyword matcher *)

Lemma lower_char_idempotent (c : ascii) : lower_char (lower_char c) = lower_char c.
Proof. destruct c as [[] [] [] [] [] [] [] []]; reflexivity. Qed.

Lemma lower_idempotent (s : string) : lower (lower s) = lower s.
Proof.
  induction s as [|c s IH]; simpl; [reflexivity|].
  now rewrite lower_char_idempotent, IH.
Qed.

Lemma find_keyword_matches_In (df : list Transaction) (t : Transaction) :
  In t (_find_keyword_matches df) <->
  In t df /\ matches subscription_keywords (lower (description t)).
Proof.
  unfold _find_keyword_matches. rewrite filter_In. cbv zeta.
  rewrite lower_idempotent, any_contains. reflexivity.
Qed.

(** X1. [_find_keyword_matches] keeps exactly the rows of the table whose
    description, lower-cased, holds one of the subscription keywords. *)
Theorem find_keyword_matches_spec (df : list Transaction) (t : Transaction) :
  In t (_find_keyword_matches df) <->
  In t df /\ matches subscription_keywords (lower (description t)).
Proof. apply find_keyword_matches_In. Qed.

(** ** The recurrence analyzer *)

Lemma recurring_rows_shape (group : list Transaction) (rows : list Transaction) :
  recurring_rows group = Ok rows ->
  (List.length rows <= 1)%nat
  /\ forall r, In r rows -> In r group /\ (2 <= List.length group)%nat.
Proof.
  intros H. destruct (Nat.le_gt_cases 2 (List.length group)) as [Hlen|Hlen].
  - destruct (recurring_rows_many group Hlen) as [e [_ [Hin [_ Hr]]]].
    rewrite Hr in H. injection H as <-.
    destruct (is_recurring (gaps group)); simpl; (split; [lia|]).
    + intros r [<-|[]]. auto.
    + intros r [].
  - rewrite recurring_rows_single in H by exact Hlen. injection H as <-.
    simpl. split; [lia|]. intros r [].
Qed.

Lemma concat_keys_NoDup {A K : Type} (key : A -> K)
      (groups : list (K * list A)) (rows : list (list A)) :
  Forall2 (fun g rs => (List.length rs <= 1)%nat /\ forall r, In r rs -> key r = fst g)
          groups rows ->
  NoDup (map fst groups) ->
  NoDup (map key (List.concat rows))
  /\ forall r, In r (List.concat rows) -> In (key r) (map fst groups).
Proof.
  induction 1 as [|g rs groups rows [Hlen Hkey] _ IH]; simpl; intros Hnd.
  - split; [constructor|]. intros r [].
  - inversion Hnd as [|? ? Hnotin Hnd']; subst.
    destruct (IH Hnd') as [IHnd IHin].
    split.
    + destruct rs as [|r [|r' rs]]; simpl in *; [exact IHnd| |lia].
      constructor; [|exact IHnd].
      rewrite (Hkey r) by auto. intros Hin.
      apply in_map_iff in Hin. destruct Hin as [r' [Hr' Hin]].
      apply Hnotin. rewrite <- Hr'. now apply IHin.
    + intros r Hr. apply in_app_or in Hr. destruct Hr as [Hr|Hr].
      * left. symmetry. now apply Hkey.
      * right. now apply IHin.
Qed.

Lemma find_recurring_patterns_subset (df out : list Transaction) (r : Transaction) :
  _find_recurring_patterns df = Ok out -> In r out ->
  In r df /\ (2 <= List.length (group_of df (description r) (amount r)))%nat.
Proof.
  intros H Hr.
  apply (find_recurring_patterns_In df out r H) in Hr.
  destruct Hr as [rows [Hrows Hin]].
  destruct (recurring_rows_shape _ _ Hrows) as [_ Hshape].
  destruct (Hshape r Hin) as [Hg Hlen].
  apply (group_member _ _ pair_eqb_eq) in Hg. split; [tauto|exact Hlen].
Qed.

(** X2. Every row [_find_recurring_patterns] returns is a row of the table
    that shares its description and amount with another row at least, and
    no two rows it returns share both description and amount. *)
Theorem find_recurring_patterns_rows (df out : list Transaction) :
  _find_recurring_patterns df = Ok out ->
  (forall r, In r out ->
             In r df /\ (2 <= List.length (group_of df (description r) (amount r)))%nat)
  /\ NoDup (map by_description_amount out).
Proof.
  intros H. split.
  - intros r Hr. exact (find_recurring_patterns_subset df out r H Hr).
  - revert H. unfold _find_recurring_patterns. fold by_description_amount.
    destruct (for_each _ _) as [rows|e] eqn:E; simpl; [|discriminate].
    intros H. injection H as <-.
    apply for_each_Ok in E.
    apply (concat_keys_NoDup by_description_amount
             (groupby pair_eqb pair_leb by_description_amount df) rows).
    + assert (Hg : Forall (fun g => snd g = filter (has_key pair_eqb by_description_amount (fst g)) df)
                          (groupby pair_eqb pair_leb by_description_amount df)).
      { apply Forall_forall. intros [k g] Hin.
        apply (groupby_In _ _ _ pair_eqb_eq) in Hin. simpl. tauto. }
      induction E as [|g rs gs rss Hrs _ IH]; constructor.
      * apply Forall_inv in Hg.
        destruct (recurring_rows_shape _ _ Hrs) as [Hlen Hshape].
        split; [exact Hlen|]. intros r Hr.
        destruct (Hshape r Hr) as [Hin _]. rewrite Hg in Hin.
        now apply (group_member _ _ pair_eqb_eq) in Hin.
      * apply IH. now apply Forall_inv_tail in Hg.
    + apply groupby_keys_NoDup, pair_eqb_eq.
Qed.

Lemma find_recurring_patterns_rows_witness :
  exists out,
    _find_recurring_patterns pool_and_club = Ok out
    /\ (forall r, In r out -> In r pool_and_club)
    /\ NoDup (map by_description_amount out).
Proof.
  destruct (_find_recurring_patterns pool_and_club) as [out|e] eqn:E;
    [|vm_compute in E; discriminate].
  exists out. split; [reflexivity|].
  destruct (find_recurring_patterns_rows pool_and_club out E) as [Hrows Hnd].
  split; [|exact Hnd]. intros r Hr. now apply Hrows.
Defined.

(** ** When the monthly-cost computation raises *)

Lemma for_each_Raise_inv {A B : Type} (body : A -> Result B) (l : list A) (e : Exception) :
  for_each body l = Raise e -> exists x, In x l /\ body x = Raise e.
Proof.
  induction l as [|a l IH]; simpl; [discriminate|].
  destruct (body a) as [y|e'] eqn:Ha; simpl.
  - destruct (for_each body l) as [ys|e'] eqn:Hl; simpl; [discriminate|].
    intros H. injection H as ->. destruct (IH eq_refl) as [x [Hx Hb]]. eauto.
  - intros H. injection H as ->. eauto.
Qed.

Lemma fold_add_start (l : list Z) (x : Z) :
  fold_left Z.add l x = x + fold_left Z.add l 0.
Proof.
  revert x; induction l as [|a l IH]; simpl; intros x; [lia|].
  rewrite (IH (x + a)), (IH a). lia.
Qed.

Lemma py_sum_cons (x : Z) (l : list Z) : py_sum (x :: l) = x + py_sum l.
Proof. unfold py_sum. simpl. apply fold_add_start. Qed.

Lemma py_sum_nonneg (l : list Z) :
  (forall g, In g l -> 0 <= g) ->
  0 <= py_sum l /\ (py_sum l = 0 <-> forall g, In g l -> g = 0).
Proof.
  induction l as [|a l IH]; intros H.
  - split; [reflexivity|]. split; [intros _ g []|reflexivity].
  - rewrite py_sum_cons.
    destruct IH as [Hpos Hiff]; [intros; apply H; now right|].
    assert (Ha : 0 <= a) by (apply H; now left).
    split; [lia|]. split.
    + intros Hs g [<-|Hg]; [lia|]. apply Hiff; [lia|exact Hg].
    + intros Hz. rewrite (Hz a) by now left.
      rewrite (proj2 Hiff); [reflexivity|]. intros; apply Hz; now right.
Qed.

Lemma intervals_nonneg (dates : list Timestamp) :
  StronglySorted Z.le dates -> forall g, In g (intervals dates) -> 0 <= g.
Proof.
  induction 1 as [|a l Hs IH Hall]; [intros g []|].
  destruct l as [|b l]; [intros g []|].
  change (intervals (a :: b :: l)) with (days_between a b :: intervals (b :: l)).
  intros g [<-|Hg]; [|auto].
  unfold days_between. apply Z.div_pos; [|reflexivity].
  apply Forall_inv in Hall. lia.
Qed.

Lemma StronglySorted_map {A B : Type} (f : A -> B) (R : B -> B -> Prop) (l : list A) :
  StronglySorted (fun a b => R (f a) (f b)) l -> StronglySorted R (map f l).
Proof.
  induction 1 as [|a l Hs IH Hall]; simpl; constructor; [exact IH|].
  rewrite Forall_forall in *. intros b Hb.
  apply in_map_iff in Hb. destruct Hb as [x [<- Hx]]. auto.
Qed.

Lemma candidate_gaps_nonneg (group : list Candidate) (g : Z) :
  In g (candidate_gaps group) -> 0 <= g.
Proof.
  apply intervals_nonneg, StronglySorted_map, sort_values_sorted.
Qed.

Lemma mean_gap_zero (ints : list Z) :
  ints <> [] -> (mean_gap ints = of_int 0 <-> py_sum ints = 0).
Proof.
  intros Hne. unfold mean_gap.
  assert (Hlen : of_int (Z.of_nat (List.length ints)) <> of_int 0).
  { rewrite of_int_inj. destruct ints; [contradiction|simpl; lia]. }
  split.
  - intros H. unfold Qcdiv in H.
    destruct (Qcmult_integral _ _ H) as [H0|H0].
    + now apply of_int_inj in H0.
    + exfalso. pose proof (Qcmult_inv_r _ Hlen) as H1.
      rewrite H0, Qcmult_0_r in H1. discriminate.
  - intros ->. unfold Qcdiv. apply Qcmult_0_l.
Qed.

Lemma mean_gap_zero_iff (group : list Candidate) :
  (2 <= List.length group)%nat ->
  (mean_gap (candidate_gaps group) = of_int 0 <->
   forall g, In g (candidate_gaps group) -> g = 0).
Proof.
  intros Hlen.
  rewrite (mean_gap_zero _ (candidate_gaps_nonempty group Hlen)).
  apply py_sum_nonneg. intros g. apply candidate_gaps_nonneg.
Qed.

Lemma positive_gap (l : list Z) :
  (forall g, In g l -> 0 <= g) ->
  ~ (forall g, In g l -> g = 0) -> exists g, In g l /\ 0 < g.
Proof.
  induction l as [|a l IH]; intros Hpos Hnz.
  - exfalso. apply Hnz. intros g [].
  - destruct (Z.eq_dec a 0) as [->|Ha].
    + destruct IH as [g [Hg Hgt]].
      * intros; apply Hpos; now right.
      * intros Hz. apply Hnz. intros g [<-|Hg]; auto.
      * exists g. split; [now right|exact Hgt].
    + exists a. split; [now left|].
      assert (0 <= a) by (apply Hpos; now left). lia.
Qed.

Lemma subscription_row_Raise (group : list Candidate) (e : Exception) :
  group <> [] -> subscription_row group = Raise e ->
  e = ZeroDivisionError
  /\ (2 <= List.length group)%nat
  /\ mean_gap (candidate_gaps group) = of_int 0.
Proof.
  intros Hne H. destruct group as [|c [|c' group]]; [contradiction| |].
  - rewrite subscription_row_single in H. discriminate.
  - assert (Hlen : (2 <= List.length (c :: c' :: group))%nat) by (simpl; lia).
    destruct (subscription_row_many _ Hlen) as [last [_ [_ [_ Hrow]]]].
    rewrite Hrow in H. unfold recurring_subscription in H.
    destruct (between 25 _ 35); [discriminate|].
    destruct (between 350 _ 380); [discriminate|].
    destruct (Qc_eqb _ _) eqn:E; [|discriminate].
    apply Qc_eqb_eq in E. injection H as <-. auto.
Qed.

(** X3. On a candidate table that has a date in every row (no [NaT]),
    [_calculate_monthly_cost] returns a table if and only if every
    description with two candidate rows or more has, in date order, two
    consecutive rows a day or more apart; and the only exception it raises
    on such a table is ZeroDivisionError. *)
Theorem calculate_monthly_cost_returns_iff (df : list Candidate) :
  ((exists subs, _calculate_monthly_cost df = Ok subs) <->
   (forall d, (2 <= List.length (description_group df d))%nat ->
              exists g, In g (candidate_gaps (description_group df d)) /\ 0 < g))
  /\ (forall e, _calculate_monthly_cost df = Raise e -> e = ZeroDivisionError).
Proof.
  split; [split|].
  - intros [subs Hsubs] d Hlen.
    apply positive_gap; [intros g; apply candidate_gaps_nonneg|].
    intros Hz. apply (mean_gap_zero_iff _ Hlen) in Hz.
    destruct (calculate_monthly_cost_zero_gap df d Hlen Hz) as [e He]. congruence.
  - intros H. apply calculate_monthly_cost_returns. intros d Hlen Hz.
    pose proof (proj1 (mean_gap_zero_iff _ Hlen) Hz) as Hall.
    destruct (H d Hlen) as [g [Hg Hpos]]. specialize (Hall g Hg). lia.
  - intros e He. apply for_each_Raise_inv in He.
    destruct He as [[k g] [Hin Hraise]].
    apply (groupby_In _ _ _ String.eqb_eq) in Hin. destruct Hin as [Hk ->].
    simpl in Hraise.
    apply subscription_row_Raise in Hraise; [tauto|].
    now apply (group_nonempty _ _ String.eqb_eq).
Qed.

Lemma calculate_monthly_cost_returns_iff_witness :
  (exists subs, _calculate_monthly_cost sample_candidates = Ok subs)
  /\ exists g,
      In g (candidate_gaps (description_group sample_candidates "NETFLIX.COM")) /\ 0 < g.
Proof.
  destruct (calculate_monthly_cost_returns_iff sample_candidates) as [[Honly _] _].
  assert (H : exists subs, _calculate_monthly_cost sample_candidates = Ok subs).
  { exists sample_subscriptions. vm_compute. reflexivity. }
  split; [exact H|].
  apply (Honly H "NETFLIX.COM"). vm_compute. lia.
Defined.

(** ** The rows of the subscription table *)

Lemma subscription_row_latest (group : list Candidate) (s : Subscription) :
  subscription_row group = Ok s ->
  In (base s) group
  /\ last_charge s = cand_date (base s)
  /\ forall c, In c group -> cand_date c <= last_charge s.
Proof.
  destruct group as [|c [|c' group]].
  - discriminate.
  - rewrite subscription_row_single. intros H. injection H as <-. simpl.
    split; [now left|]. split; [reflexivity|].
    intros c0 [<-|[]]. unfold cand_date. lia.
  - intros H.
    destruct (subscription_row_many (c :: c' :: group)) as [last [_ [Hin [Hmax Hrow]]]];
      [simpl; lia|].
    rewrite Hrow in H. unfold recurring_subscription in H.
    destruct (between 25 _ 35); [injection H as <-; simpl; auto|].
    destruct (between 350 _ 380); [injection H as <-; simpl; auto|].
    destruct (Qc_eqb _ _); [discriminate|injection H as <-; simpl; auto].
Qed.

(** X4. Every row [_calculate_monthly_cost] returns copies a candidate row of
    its description that no candidate row of that description is later
    than, and its last_charge is the date of that row. *)
Theorem last_charge_is_latest (df : list Candidate) (subs : list Subscription)
        (s : Subscription) :
  _calculate_monthly_cost df = Ok subs ->
  In s subs ->
  In (base s) df
  /\ last_charge s = cand_date (base s)
  /\ forall c, In c df -> cand_description c = sub_description s ->
               cand_date c <= last_charge s.
Proof.
  intros H Hs.
  destruct (calculate_monthly_cost_row df subs s H Hs) as [Hrow _].
  destruct (subscription_row_latest _ _ Hrow) as [Hbase [Hlast Hmax]].
  apply description_group_member in Hbase.
  split; [tauto|]. split; [exact Hlast|].
  intros c Hc Hd. apply Hmax, description_group_member. auto.
Qed.

Lemma last_charge_is_latest_witness :
  In (netflix_charge 19419) sample_candidates
  /\ cand_date (netflix_charge 19358) <= day 19419.
Proof.
  destruct (last_charge_is_latest sample_candidates sample_subscriptions
              {| base := netflix_charge 19419; monthly_cost := Q2Qc (1549 # 100);
                 frequency := "monthly"; last_charge := day 19419 |})
    as [Hbase [_ Hmax]].
  - vm_compute. reflexivity.
  - simpl. auto.
  - split; [exact Hbase|].
    apply (Hmax (netflix_charge 19358)); [simpl; auto|reflexivity].
Defined.

Lemma leb_ltb (a b : string) : (a <=? b)%string = true -> a <> b -> (a <? b)%string = true.
Proof.
  unfold String.leb, String.ltb. intros H Hne.
  destruct (String.compare a b) eqn:E; try reflexivity; try discriminate.
  apply String.compare_eq_iff in E. contradiction.
Qed.

Lemma Sorted_strict (l : list string) :
  Sorted (fun a b => (a <=? b)%string = true) l -> NoDup l ->
  Sorted (fun a b => (a <? b)%string = true) l.
Proof.
  induction 1 as [|a l Hs IH Hh]; intros Hnd; constructor.
  - apply IH. now inversion Hnd.
  - destruct Hh as [|b l Hab]; constructor.
    apply leb_ltb; [exact Hab|].
    intros ->. inversion Hnd as [|? ? Hnotin _]; subst. apply Hnotin. now left.
Qed.

(** X5. The rows [_calculate_monthly_cost] returns come in strictly ascending
    order of description. *)
Theorem calculate_monthly_cost_sorted (df : list Candidate) (subs : list Subscription) :
  _calculate_monthly_cost df = Ok subs ->
  Sorted (fun a b => (a <? b)%string = true) (map sub_description subs).
Proof.
  intros H. apply Sorted_strict.
  - rewrite (calculate_monthly_cost_descriptions _ _ H), groupby_keys.
    apply sort_by_sorted, String.leb_total.
  - apply (calculate_monthly_cost_unique _ _ H).
Qed.

Lemma calculate_monthly_cost_sorted_witness :
  Sorted (fun a b => (a <? b)%string = true) ["DOMAIN REGISTRATION"; "NETFLIX.COM"].
Proof.
  apply (calculate_monthly_cost_sorted sample_candidates sample_subscriptions).
  vm_compute. reflexivity.
Defined.

(** ** The pipeline below the date conversion *)

Lemma detect_from_inv (df : list Transaction) (subs : list Subscription) :
  detect_from df = Ok subs ->
  exists recurring,
    _find_recurring_patterns df = Ok recurring
    /\ _calculate_monthly_cost (combined_candidates df recurring) = Ok subs.
Proof.
  unfold detect_from.
  destruct (_find_recurring_patterns df) as [recurring|e]; simpl; [|discriminate].
  intros H. exists recurring. split; [reflexivity|exact H].
Qed.

Lemma combined_candidates_In (df recurring : list Transaction) (c : Candidate) :
  In c (combined_candidates df recurring) <->
  c = categorized (row c)
  /\ (In (row c) (_find_keyword_matches df) \/ In (row c) recurring).
Proof.
  unfold combined_candidates. rewrite in_map_iff. split.
  - intros [t [<- Ht]]. simpl. split; [reflexivity|].
    apply drop_duplicates_In, in_app_or in Ht. exact Ht.
  - intros [Hc Hin]. exists (row c). split; [now symmetry|].
    apply drop_duplicates_In, in_or_app. exact Hin.
Qed.

Lemma first_category_In (cats : list (string * list string)) (s c : string) :
  first_category cats s = Some c -> In c (map fst cats).
Proof.
  induction cats as [|[c' kws] cats IH]; simpl; [discriminate|].
  destruct (any _ kws); [|auto].
  intros H. injection H as ->. now left.
Qed.

Lemma categorize_subscription_In (d : string) :
  In (_categorize_subscription d) (map fst categories).
Proof.
  unfold _categorize_subscription.
  destruct (first_category categories (lower d)) as [c|] eqn:E.
  - exact (first_category_In _ _ _ E).
  - simpl. tauto.
Qed.

(** X6. Every row the detection returns copies a transaction of the table
    that a keyword or its recurrence selected, and its category is the one
    [_categorize_subscription] gives its description: one of streaming,
    music, cloud, software, gaming, fitness, news, other. *)
Theorem detected_rows (df : list Transaction) (subs : list Subscription)
        (s : Subscription) :
  detect_from df = Ok subs ->
  In s subs ->
  In (row (base s)) df
  /\ sub_category s = _categorize_subscription (sub_description s)
  /\ In (sub_category s)
        ["streaming"; "music"; "cloud"; "software"; "gaming"; "fitness"; "news"; "other"].
Proof.
  intros H Hs.
  destruct (detect_from_inv _ _ H) as [recurring [Hrec Hcost]].
  destruct (calculate_monthly_cost_row _ _ s Hcost Hs) as [Hrow _].
  apply subscription_row_base, description_group_member in Hrow.
  destruct Hrow as [Hin _].
  apply combined_candidates_In in Hin. destruct Hin as [Hcat Hsel].
  assert (Hc : sub_category s = _categorize_subscription (sub_description s)).
  { unfold sub_category, sub_description. rewrite Hcat at 1. reflexivity. }
  split; [|split; [exact Hc|]].
  - destruct Hsel as [Hkw|Hr].
    + now apply find_keyword_matches_In in Hkw.
    + now apply (find_recurring_patterns_subset df recurring _ Hrec).
  - rewrite Hc. apply (categorize_subscription_In (sub_description s)).
Qed.

Lemma detected_rows_witness :
  exists subs,
    detect_from pool_and_club = Ok subs
    /\ forall s, In s subs ->
                 In (row (base s)) pool_and_club
                 /\ sub_category s = _categorize_subscription (sub_description s).
Proof.
  destruct (detect_from pool_and_club) as [subs|e] eqn:E;
    [|vm_compute in E; discriminate].
  exists subs. split; [reflexivity|]. intros s Hs.
  destruct (detected_rows pool_and_club subs s E Hs) as [Hrow [Hcat _]]. auto.
Defined.

Lemma filter_single {A : Type} (p : A -> bool) (l : list A) (e : A) :
  NoDup l -> In e l -> p e = true ->
  (forall x, In x l -> p x = true -> x = e) ->
  filter p l = [e].
Proof.
  induction 1 as [|a l Ha Hnd IH]; simpl; [contradiction|].
  intros Hin He Huniq. destruct (p a) eqn:Hpa.
  - assert (a = e) by (apply Huniq; auto). subst a. f_equal.
    destruct (filter p l) as [|x l'] eqn:Hf; [reflexivity|exfalso].
    assert (Hx : In x (filter p l)) by (rewrite Hf; now left).
    apply filter_In in Hx. destruct Hx as [Hx Hpx].
    assert (x = e) by (apply Huniq; auto). subst x. contradiction.
  - destruct Hin as [->|Hin]; [congruence|].
    apply IH; auto.
Qed.

Lemma description_group_categorized (l : list Transaction) (d : string) :
  description_group (map categorized l) d
  = map categorized (filter (fun t => (description t =? d)%string) l).
Proof.
  unfold description_group. induction l as [|t l IH]; simpl; [reflexivity|].
  unfold has_key at 1. unfold cand_description at 1. simpl.
  destruct (description t =? d)%string; simpl; now rewrite IH.
Qed.

(** X7. A description without keyword whose charges are all of one amount
    and recur (at least two of them, every gap within 5 days of the mean gap,
    the mean gap in [25,35] or in [350,380]) is reported from its earliest
    charge alone: frequency "unknown", monthly_cost that amount, last_charge
    the date of the earliest charge. *)
Theorem recurrence_only_is_unknown (df : list Transaction) (subs : list Subscription)
        (d : string) (a : Qc) :
  detect_from df = Ok subs ->
  ~ matches subscription_keywords (lower d) ->
  (forall t, In t df -> description t = d -> amount t = a) ->
  (2 <= List.length (group_of df d a))%nat ->
  consistent (gaps (group_of df d a)) ->
  periodic (gaps (group_of df d a)) ->
  exists earliest s,
    iloc_first (sort_values date (group_of df d a)) = Ok earliest
    /\ (forall r, In r (group_of df d a) -> date earliest <= date r)
    /\ In s subs
    /\ row (base s) = earliest
    /\ frequency s = "unknown"
    /\ monthly_cost s = a
    /\ last_charge s = date earliest.
Proof.
  intros H Hnokw Hamt Hlen Hcons Hper.
  destruct (detect_from_inv _ _ H) as [recurring [Hrec Hcost]].
  destruct (recurring_rows_many _ Hlen) as [earliest [Hfirst [Hin [Hmin Hrows]]]].
  fold (group_of df d a) in Hin.
  assert (Hkey : by_description_amount earliest = (d, a)).
  { unfold group_of in Hin. now apply (group_member _ _ pair_eqb_eq) in Hin. }
  assert (Hrecur : is_recurring (gaps (group_of df d a)) = true)
    by (apply is_recurring_spec; auto).
  assert (Hemit : In earliest recurring).
  { apply (find_recurring_patterns_In df recurring earliest Hrec).
    rewrite Hkey. fold (group_of df d a). unfold group_of in Hrows |- *.
    rewrite Hrows. unfold group_of in Hrecur. rewrite Hrecur.
    exists [earliest]. simpl. auto. }
  assert (Honly : forall r, In r recurring -> description r = d -> r = earliest).
  { intros r Hr Hd.
    pose proof (find_recurring_patterns_subset df recurring r Hrec Hr) as [Hrdf _].
    pose proof (Hamt r Hrdf Hd) as Ha.
    apply (find_recurring_patterns_In df recurring r Hrec) in Hr.
    destruct Hr as [rows [Hr Hinr]].
    assert (Hk : by_description_amount r = (d, a))
      by (unfold by_description_amount; now rewrite Hd, Ha).
    rewrite Hk in Hr. unfold group_of in Hrows, Hrecur.
    rewrite Hrows, Hrecur in Hr. injection Hr as <-.
    destruct Hinr as [->|[]]. reflexivity. }
  assert (Hd : description earliest = d) by (now injection Hkey).
  assert (Ha : amount earliest = a) by (now injection Hkey).
  assert (Hgroup : description_group (combined_candidates df recurring) d
                   = [categorized earliest]).
  { unfold combined_candidates. rewrite description_group_categorized.
    rewrite (filter_single _ _ earliest); [reflexivity| | | |].
    - apply unique_NoDup, transaction_eqb_eq.
    - apply drop_duplicates_In, in_or_app. now right.
    - now apply String.eqb_eq.
    - intros x Hx Hxd. apply String.eqb_eq in Hxd.
      apply drop_duplicates_In, in_app_or in Hx. destruct Hx as [Hx|Hx].
      + apply find_keyword_matches_In in Hx. destruct Hx as [_ Hx].
        rewrite Hxd in Hx. contradiction.
      + now apply Honly. }
  destruct (calculate_monthly_cost_group _ subs d Hcost) as [s [Hs Hrow]].
  { apply description_group_In. rewrite Hgroup. discriminate. }
  rewrite Hgroup, subscription_row_single in Hrow. injection Hrow as <-.
  exists earliest, {| base := categorized earliest;
                      monthly_cost := amount (row (categorized earliest));
                      frequency := "unknown";
                      last_charge := date (row (categorized earliest)) |}.
  simpl. repeat (split; [assumption || reflexivity|]). reflexivity.
Qed.

Lemma recurrence_only_is_unknown_witness :
  exists subs s,
    detect_from pool_and_club = Ok subs
    /\ In s subs
    /\ row (base s) = charge 0 "POOL" (30 # 1)
    /\ frequency s = "unknown"
    /\ last_charge s = day 0.
Proof.
  destruct (detect_from pool_and_club) as [subs|e] eqn:E;
    [|vm_compute in E; discriminate].
  destruct (recurrence_only_is_unknown pool_and_club subs "POOL" (Q2Qc (30 # 1)) E)
    as [earliest [s [Hfirst [_ [Hs [Hrow [Hf [_ Hlast]]]]]]]].
  - apply no_match_by_evaluation. vm_compute. reflexivity.
  - intros t Ht Hd. simpl in Ht.
    repeat (destruct Ht as [<-|Ht]; [try reflexivity; discriminate|]). destruct Ht.
  - vm_compute. lia.
  - apply is_recurring_spec. vm_compute. reflexivity.
  - apply is_recurring_spec. vm_compute. reflexivity.
  - vm_compute in Hfirst. injection Hfirst as <-.
    exists subs, s. auto.
Defined.

Lemma In_nil_eq {A : Type} (l : list A) : (forall x, ~ In x l) -> l = [].
Proof.
  destruct l as [|a l]; [reflexivity|]. intros H. exfalso. apply (H a). now left.
Qed.

(** X8. The detection returns the empty table exactly when no row holds a
    keyword and no recurring pattern is found: a table without matches, the
    empty table among them, is no error. *)
Theorem detect_from_empty_iff (df : list Transaction) :
  detect_from df = Ok [] <->
  _find_keyword_matches df = [] /\ _find_recurring_patterns df = Ok [].
Proof.
  split.
  - intros H. destruct (detect_from_inv _ _ H) as [recurring [Hrec Hcost]].
    destruct (calculate_monthly_cost_unique _ _ Hcost) as [_ Hiff].
    assert (Hnone : forall t, ~ In t (_find_keyword_matches df ++ recurring)).
    { intros t Ht. apply (Hiff (description t)).
      unfold combined_candidates. rewrite map_map. simpl.
      apply in_map with (f := description) in Ht.
      apply in_map_iff in Ht. destruct Ht as [t' [Hd Ht']].
      apply in_map_iff. exists t'. split; [exact Hd|].
      now apply drop_duplicates_In. }
    apply In_nil_eq in Hnone. apply app_eq_nil in Hnone.
    destruct Hnone as [-> ->]. auto.
  - intros [Hkw Hrec]. unfold detect_from. rewrite Hkw, Hrec. reflexivity.
Qed.

(** X11. The row returned for a description that holds a keyword is built
    from all the charges of that description: it copies one of them, and its
    last_charge is the date of that charge, the latest of them all. *)
Theorem keyword_description_latest (df : list Transaction) (subs : list Subscription)
        (s : Subscription) :
  detect_from df = Ok subs ->
  In s subs ->
  matches subscription_keywords (lower (sub_description s)) ->
  In (row (base s)) df
  /\ last_charge s = date (row (base s))
  /\ forall t, In t df -> description t = sub_description s -> date t <= last_charge s.
Proof.
  intros H Hs Hkw.
  destruct (detect_from_inv _ _ H) as [recurring [Hrec Hcost]].
  destruct (calculate_monthly_cost_row _ _ s Hcost Hs) as [Hrow _].
  destruct (subscription_row_latest _ _ Hrow) as [Hbase [Hlast Hmax]].
  apply description_group_member in Hbase. destruct Hbase as [Hbase _].
  apply combined_candidates_In in Hbase. destruct Hbase as [_ Hsel].
  split; [|split; [exact Hlast|]].
  - destruct Hsel as [Hk|Hr].
    + now apply find_keyword_matches_In in Hk.
    + now apply (find_recurring_patterns_subset df recurring _ Hrec).
  - intros t Ht Hd.
    apply (Hmax (categorized t)), description_group_member. split; [|exact Hd].
    apply combined_candidates_In. split; [reflexivity|]. left.
    apply find_keyword_matches_In. split; [exact Ht|].
    simpl. now rewrite Hd.
Qed.

Lemma keyword_description_latest_witness :
  exists subs s,
    detect_from (transactions sample_statement
                   [day 19358; day 19362; day 19367; day 19389; day 19397; day 19419])
    = Ok subs
    /\ In s subs
    /\ sub_description s = "NETFLIX.COM"
    /\ last_charge s = day 19419.
Proof.
  destruct (detect_from _) as [subs|e] eqn:E; [|vm_compute in E; discriminate].
  assert (Hs : exists s, In s subs /\ sub_description s = "NETFLIX.COM").
  { vm_compute in E. injection E as <-. eexists. split; [right; left|]; reflexivity. }
  destruct Hs as [s [Hs Hd]].
  destruct (keyword_description_latest _ subs s E Hs) as [Hrow [Hlast Hmax]].
  - rewrite Hd. apply any_contains. vm_compute. reflexivity.
  - exists subs, s. split; [reflexivity|]. split; [exact Hs|]. split; [exact Hd|].
    apply Z.le_antisymm.
    + rewrite Hlast. clear - Hrow. simpl in Hrow.
      repeat (destruct Hrow as [<-|Hrow]; [vm_compute; discriminate|]). destruct Hrow.
    + apply (Hmax (charge 19419 "NETFLIX.COM" (1549 # 100))).
      * simpl. auto 7.
      * now rewrite Hd.
Defined.

(** * Further properties of the opportunity analyzer *)

Lemma annual_opportunity_category (l : list Subscription) :
  map opportunity_category (flat_map annual_opportunity l)
  = repeat None (List.length (flat_map annual_opportunity l)).
Proof.
  induction l as [|s l IH]; [reflexivity|]. simpl.
  rewrite map_app, length_app, repeat_app, IH. f_equal.
  unfold annual_opportunity. destruct (Qc_ltb _ _); reflexivity.
Qed.

Lemma ltb_trans (a b c : string) :
  (a <? b)%string = true -> (b <? c)%string = true -> (a <? c)%string = true.
Proof.
  unfold String.ltb. intros Hab Hbc.
  destruct (String.compare a b) eqn:E1; try discriminate.
  destruct (String.compare b c) eqn:E2; try discriminate.
  apply OrderedTypeEx.String_as_OT.cmp_lt in E1, E2.
  pose proof (OrderedTypeEx.String_as_OT.lt_trans _ _ _ E1 E2) as E3.
  apply OrderedTypeEx.String_as_OT.cmp_lt in E3.
  unfold OrderedTypeEx.String_as_OT.cmp in E3. now rewrite E3.
Qed.

Lemma StronglySorted_filter {A : Type} (R : A -> A -> Prop) (p : A -> bool) (l : list A) :
  StronglySorted R l -> StronglySorted R (filter p l).
Proof.
  induction 1 as [|a l Hs IH Hall]; simpl; [constructor|].
  destruct (p a); [|exact IH].
  constructor; [exact IH|].
  rewrite Forall_forall in *. intros x Hx. apply filter_In in Hx. apply Hall, Hx.
Qed.

(** X9. [savings_opportunities] lists the duplicate_category opportunities
    first, in strictly ascending order of category, and the annual_discount
    opportunities after them. *)
Theorem savings_opportunities_order (subs : list Subscription) :
  exists cats n,
    map opportunity_category (savings_opportunities subs)
    = map Some cats ++ repeat None n
    /\ Sorted (fun a b => (a <? b)%string = true) cats.
Proof.
  exists (duplicate_categories subs),
         (List.length (flat_map annual_opportunity
                         (filter (fun s => (frequency s =? "monthly")%string) subs))).
  split.
  - rewrite savings_opportunities_parts, map_app, map_map,
      annual_opportunity_category. reflexivity.
  - rewrite duplicate_categories_keys, groupby_keys.
    apply StronglySorted_Sorted, StronglySorted_filter, Sorted_StronglySorted.
    + intros a b c. apply ltb_trans.
    + apply Sorted_strict.
      * apply sort_by_sorted, String.leb_total.
      * apply sort_by_NoDup, unique_NoDup, String.eqb_eq.
Qed.

(** * The annual discount on doubles

    Rounding to the nearest double is monotone, so the test of the analyzer
    on [monthly_cost * 12 * 0.15] is a threshold on the monthly cost. *)

Transparent binary64.

(** ** Powers of two and the binary exponent *)

Lemma pow2_Qpower (z : Z) : pow2 z == (2 # 1) ^ z.
Proof.
  unfold pow2. destruct (Z.leb_spec 0 z) as [H|H].
  - rewrite Zpower_Qpower by exact H. reflexivity.
  - rewrite Zpower_Qpower by lia.
    change (inject_Z 2) with (2 # 1).
    rewrite Qpower_opp, Qinv_involutive. reflexivity.
Qed.

Lemma pow2_pos (z : Z) : (0 < pow2 z)%Q.
Proof. rewrite pow2_Qpower. apply Qpower_0_lt. reflexivity. Qed.

Lemma pow2_add (a b : Z) : pow2 (a + b) == pow2 a * pow2 b.
Proof. rewrite !pow2_Qpower. apply Qpower_plus. discriminate. Qed.

Lemma pow2_le (a b : Z) : a <= b -> (pow2 a <= pow2 b)%Q.
Proof.
  intros H. rewrite !pow2_Qpower. apply Qpower_le_compat_l; [exact H|discriminate].
Qed.

Lemma pow2_lt_inv (a b : Z) : (pow2 a < pow2 b)%Q -> a < b.
Proof.
  intros H. destruct (Z.lt_ge_cases a b) as [Hlt|Hge]; [exact Hlt|].
  apply pow2_le in Hge. lra.
Qed.

Lemma pow2_nonneg_Z (z : Z) : 0 <= z -> pow2 z = inject_Z (2 ^ z).
Proof. intros H. unfold pow2. apply Z.leb_le in H. now rewrite H. Qed.


Lemma pow2_succ (z : Z) : pow2 (z + 1) == 2 * pow2 z.
Proof. rewrite pow2_add. change (pow2 1) with (2 # 1). ring. Qed.

Lemma pow2_sub (a b : Z) : pow2 (a - b) == pow2 a / pow2 b.
Proof.
  rewrite !pow2_Qpower. unfold Z.sub. rewrite Qpower_plus by discriminate.
  rewrite Qpower_opp. reflexivity.
Qed.

Lemma Qdiv_lt_cross (a b c d : Q) :
  (0 < b -> 0 < d -> a * d < c * b -> a / b < c / d)%Q.
Proof.
  intros Hb Hd H.
  apply Qlt_shift_div_r; [exact Hb|].
  assert (E : c / d * b == c * b / d) by (field; lra).
  rewrite E. apply Qlt_shift_div_l; [exact Hd|exact H].
Qed.

Lemma log2_bounds (n : Z) :
  0 < n ->
  (pow2 (Z.log2 n) <= inject_Z n /\ inject_Z n < 2 * pow2 (Z.log2 n))%Q.
Proof.
  intros H. destruct (Z.log2_spec n H) as [Hlo Hhi].
  rewrite <- pow2_succ, !pow2_nonneg_Z by (pose proof (Z.log2_nonneg n); lia).
  rewrite <- Zle_Qle, <- Zlt_Qlt. split; [exact Hlo|exact Hhi].
Qed.

Lemma ratio_bounds (N D A B : Q) :
  (0 < A -> 0 < B -> A <= N -> N < 2 * A -> B <= D -> D < 2 * B ->
   A / B / 2 < N / D /\ N / D < 2 * (A / B))%Q.
Proof.
  intros HA HB H1 H2 H3 H4. split.
  - assert (E : A / B / 2 == A / (2 * B)) by (field; lra).
    rewrite E. apply Qdiv_lt_cross; [lra|lra|nra].
  - assert (E : 2 * (A / B) == (2 * A) / B) by (field; lra).
    rewrite E. apply Qdiv_lt_cross; [lra|lra|nra].
Qed.

Lemma exponent_spec (q : Q) :
  (0 < q)%Q -> (pow2 (exponent q) <= q /\ q < pow2 (exponent q + 1))%Q.
Proof.
  destruct q as [n d]. intros Hq.
  assert (Hn : 0 < n) by (unfold Qlt in Hq; simpl in Hq; lia).
  destruct (log2_bounds n Hn) as [Hn1 Hn2].
  destruct (log2_bounds (Zpos d) eq_refl) as [Hd1 Hd2].
  pose proof (ratio_bounds _ _ _ _ (pow2_pos _) (pow2_pos _) Hn1 Hn2 Hd1 Hd2) as [Hdown Hup].
  rewrite <- pow2_sub in Hdown, Hup. rewrite <- Qmake_Qdiv in Hdown, Hup.
  unfold exponent. cbn [Qnum Qden].
  set (e0 := Z.log2 n - Z.log2 (Zpos d)) in *.
  destruct (Qle_bool (pow2 e0) (n # d)) eqn:E.
  - apply Qle_bool_iff in E. rewrite pow2_succ. split; [exact E|exact Hup].
  - assert (Hlt : (n # d < pow2 e0)%Q).
    { apply Qnot_le_lt. intros Hle. apply Qle_bool_iff in Hle. congruence. }
    replace (e0 - 1 + 1) with e0 by lia. split; [|exact Hlt].
    assert (E1 : pow2 (e0 - 1) == pow2 e0 / 2) by (rewrite pow2_sub; reflexivity).
    rewrite E1. lra.
Qed.

Lemma exponent_unique (q : Q) (e : Z) :
  (pow2 e <= q)%Q -> (q < pow2 (e + 1))%Q -> exponent q = e.
Proof.
  intros Hlo Hhi.
  assert (Hq : (0 < q)%Q) by (pose proof (pow2_pos e); lra).
  destruct (exponent_spec q Hq) as [H1 H2].
  assert (exponent q < e + 1) by (apply pow2_lt_inv; lra).
  assert (e < exponent q + 1) by (apply pow2_lt_inv; lra).
  lia.
Qed.

Lemma exponent_mono (a b : Q) : (0 < a)%Q -> (a <= b)%Q -> exponent a <= exponent b.
Proof.
  intros Ha Hab.
  destruct (exponent_spec a Ha) as [H1 _].
  destruct (exponent_spec b) as [_ H2]; [lra|].
  assert (exponent a < exponent b + 1) by (apply pow2_lt_inv; lra).
  lia.
Qed.

Lemma exponent_comp (a b : Q) : (0 < a)%Q -> a == b -> exponent a = exponent b.
Proof.
  intros Ha E. destruct (exponent_spec a Ha) as [H1 H2].
  symmetry. apply exponent_unique; rewrite <- E; assumption.
Qed.

(** ** Rounding to the nearest integer *)
Lemma round_cases (x : Qc) :
  ((x - inject_Z (Qfloor x) < 1 # 2)%Q /\ round x = Qfloor x)
  \/ ((1 # 2 < x - inject_Z (Qfloor x))%Q /\ round x = Qfloor x + 1)
  \/ ((x - inject_Z (Qfloor x) == 1 # 2)%Q
      /\ round x = if Z.even (Qfloor x) then Qfloor x else Qfloor x + 1).
Proof.
  unfold round.
  destruct (Qcompare (x - inject_Z (Qfloor x)) (1 # 2)) eqn:E.
  - apply Qeq_alt in E. right; right. split; [exact E|reflexivity].
  - apply Qlt_alt in E. left. split; [exact E|reflexivity].
  - apply Qgt_alt in E. right; left. split; [exact E|reflexivity].
Qed.

Lemma round_range (x : Qc) : Qfloor x <= round x <= Qfloor x + 1.
Proof.
  destruct (round_cases x) as [[_ ->]|[[_ ->]|[_ ->]]]; [lia|lia|].
  destruct (Z.even _); lia.
Qed.

Lemma round_mono (x y : Qc) : (x <= y)%Q -> round x <= round y.
Proof.
  intros H. pose proof (Qfloor_resp_le _ _ H) as Hf.
  pose proof (round_range x) as Rx. pose proof (round_range y) as Ry.
  destruct (Z.eq_dec (Qfloor x) (Qfloor y)) as [E|NE]; [|lia].
  destruct (round_cases x) as [[Hx Ex]|[[Hx Ex]|[Hx Ex]]];
    destruct (round_cases y) as [[Hy Ey]|[[Hy Ey]|[Hy Ey]]];
    rewrite Ex, Ey; rewrite E in *; try lia; try lra;
    destruct (Z.even (Qfloor y)); lia.
Qed.

Lemma round_bounds (x : Qc) :
  (inject_Z (round x) - (1 # 2) <= x /\ x <= inject_Z (round x) + (1 # 2))%Q.
Proof.
  pose proof (Qfloor_le x) as Hlo. pose proof (Qlt_floor x) as Hhi.
  rewrite inject_Z_plus in Hhi. change (inject_Z 1) with 1%Q in Hhi.
  destruct (round_cases x) as [[Hx ->]|[[Hx ->]|[Hx ->]]].
  - lra.
  - rewrite inject_Z_plus. change (inject_Z 1) with 1%Q. lra.
  - destruct (Z.even _).
    + lra.
    + rewrite inject_Z_plus. change (inject_Z 1) with 1%Q. lra.
Qed.

Lemma round_int (x : Qc) (n : Z) : (x == inject_Z n)%Q -> round x = n.
Proof.
  intros E. assert (Hf : Qfloor x = n) by (rewrite (Qfloor_comp _ _ E); apply Qfloor_Z).
  destruct (round_cases x) as [[Hx ->]|[[Hx ->]|[Hx ->]]]; rewrite Hf in *; [reflexivity|lra|lra].
Qed.

Lemma round_le_int (x : Qc) (n : Z) : (x <= inject_Z n)%Q -> round x <= n.
Proof.
  intros H. pose proof (round_bounds x) as [Hlo _].
  assert (Hlt : (inject_Z (round x) < inject_Z (n + 1))%Q).
  { rewrite inject_Z_plus. change (inject_Z 1) with 1%Q. lra. }
  rewrite <- Zlt_Qlt in Hlt. lia.
Qed.

Lemma round_ge_int (x : Qc) (n : Z) : (inject_Z n <= x)%Q -> n <= round x.
Proof.
  intros H. pose proof (round_bounds x) as [_ Hhi].
  assert (Hlt : (inject_Z n < inject_Z (round x + 1))%Q).
  { rewrite inject_Z_plus. change (inject_Z 1) with 1%Q. lra. }
  rewrite <- Zlt_Qlt in Hlt. lia.
Qed.

(** ** Rounding to the nearest double is monotone *)
Lemma Q2Qc_this (q : Q) : (Q2Qc q == q)%Q.
Proof. apply Qred_correct. Qed.

Lemma ulp_pos (a : Q) : (0 < ulp a)%Q.
Proof. apply pow2_pos. Qed.

Lemma nearest_nonneg (a : Q) : (0 <= a)%Q -> (0 <= nearest a)%Q.
Proof.
  intros Ha. unfold nearest. pose proof (ulp_pos a) as Hu.
  apply Qmult_le_0_compat; [|lra].
  change 0%Q with (inject_Z 0). rewrite <- Zle_Qle.
  apply round_ge_int. rewrite Q2Qc_this.
  apply Qle_shift_div_l; [exact Hu|]. change (inject_Z 0) with 0%Q. lra.
Qed.

Lemma nearest_same_ulp (a b : Q) :
  ulp a = ulp b -> (a <= b)%Q -> (nearest a <= nearest b)%Q.
Proof.
  intros E H. unfold nearest. rewrite E. pose proof (ulp_pos b) as Hu.
  apply Qmult_le_compat_r; [|lra].
  rewrite <- Zle_Qle. apply round_mono. rewrite !Q2Qc_this.
  apply Qmult_le_compat_r; [exact H|]. apply Qlt_le_weak, Qinv_lt_0_compat, Hu.
Qed.

Lemma nearest_ge_pow2 (b : Q) :
  (0 < b)%Q -> -1074 <= exponent b - 52 -> (pow2 (exponent b) <= nearest b)%Q.
Proof.
  intros Hb Hk. destruct (exponent_spec b Hb) as [Hlo _].
  unfold nearest, ulp. rewrite Z.max_l by lia.
  set (k := exponent b - 52). pose proof (pow2_pos k) as Hu.
  assert (E : pow2 (exponent b) == inject_Z (2 ^ 52) * pow2 k).
  { rewrite <- (pow2_nonneg_Z 52) by lia. rewrite <- pow2_add. unfold k.
    replace (52 + (exponent b - 52)) with (exponent b) by lia. reflexivity. }
  rewrite E. apply Qmult_le_compat_r; [|lra].
  rewrite <- Zle_Qle. apply round_ge_int. rewrite Q2Qc_this.
  apply Qle_shift_div_l; [exact Hu|]. rewrite <- E. exact Hlo.
Qed.

Lemma nearest_le_pow2 (a : Q) :
  (0 < a)%Q ->
  (nearest a <= pow2 (Z.max (exponent a - 52) (-1074) + 53))%Q.
Proof.
  intros Ha. destruct (exponent_spec a Ha) as [_ Hhi].
  unfold nearest, ulp.
  set (k := Z.max (exponent a - 52) (-1074)). pose proof (pow2_pos k) as Hu.
  assert (E : pow2 (k + 53) == inject_Z (2 ^ 53) * pow2 k).
  { rewrite <- (pow2_nonneg_Z 53) by lia. rewrite <- pow2_add.
    replace (53 + k) with (k + 53) by lia. reflexivity. }
  rewrite E. apply Qmult_le_compat_r; [|lra].
  rewrite <- Zle_Qle. apply round_le_int. rewrite Q2Qc_this.
  apply Qle_shift_div_r; [exact Hu|]. rewrite <- E.
  apply Qlt_le_weak. apply (Qlt_le_trans _ _ _ Hhi). apply pow2_le. lia.
Qed.

Lemma nearest_mono (a b : Q) : (0 < a)%Q -> (a <= b)%Q -> (nearest a <= nearest b)%Q.
Proof.
  intros Ha Hab. assert (Hb : (0 < b)%Q) by lra.
  pose proof (exponent_mono a b Ha Hab) as He.
  destruct (Z.eq_dec (Z.max (exponent a - 52) (-1074)) (Z.max (exponent b - 52) (-1074)))
    as [E|NE].
  - apply nearest_same_ulp; [|exact Hab]. unfold ulp. now rewrite E.
  - apply (Qle_trans _ _ _ (nearest_le_pow2 a Ha)).
    apply (Qle_trans _ (pow2 (exponent b))); [apply pow2_le; lia|].
    apply nearest_ge_pow2; [exact Hb|lia].
Qed.

Lemma nearest_comp (a b : Q) : (0 < a)%Q -> a == b -> nearest a == nearest b.
Proof.
  intros Ha E. apply Qle_antisym; apply nearest_mono; rewrite ?E; lra.
Qed.

Lemma binary64_pos (x : Qc) : (0 < x)%Q -> (binary64 x == nearest x)%Q.
Proof.
  intros H. unfold binary64.
  destruct (Qc_eqb x (of_int 0)) eqn:E.
  - unfold Qc_eqb in E. apply Qeq_bool_iff in E.
    change (this (of_int 0)) with 0%Q in E. lra.
  - assert (Hle : Qle_bool 0 x = true) by (apply Qle_bool_iff; lra).
    rewrite Hle, Q2Qc_this, Qmult_1_l.
    apply nearest_comp; [|apply Qabs.Qabs_pos; lra].
    apply Qabs.Qabs_gt, H.
Qed.

Lemma binary64_neg (x : Qc) : (x < 0)%Q -> (binary64 x == - nearest (- x))%Q.
Proof.
  intros H. unfold binary64.
  destruct (Qc_eqb x (of_int 0)) eqn:E.
  - unfold Qc_eqb in E. apply Qeq_bool_iff in E.
    change (this (of_int 0)) with 0%Q in E. lra.
  - assert (Hle : Qle_bool 0 x = false).
    { destruct (Qle_bool 0 x) eqn:E'; [|reflexivity]. apply Qle_bool_iff in E'. lra. }
    rewrite Hle, Q2Qc_this.
    assert (Ea : nearest (Qabs.Qabs x) == nearest (- x)).
    { apply nearest_comp; [|apply Qabs.Qabs_neg; lra].
      rewrite Qabs.Qabs_neg by lra. lra. }
    rewrite Ea. ring.
Qed.

Lemma binary64_zero (x : Qc) : (x == 0)%Q -> (binary64 x == 0)%Q.
Proof.
  intros H. unfold binary64.
  assert (E : Qc_eqb x (of_int 0) = true).
  { unfold Qc_eqb. apply Qeq_bool_iff. exact H. }
  rewrite E. reflexivity.
Qed.

Lemma binary64_mono (x y : Qc) : (x <= y)%Qc -> (binary64 x <= binary64 y)%Qc.
Proof.
  unfold Qcle. intros H.
  destruct (Q_dec x 0) as [[Hx|Hx]|Hx]; destruct (Q_dec y 0) as [[Hy|Hy]|Hy];
    rewrite ?(binary64_neg x Hx), ?(binary64_pos x Hx), ?(binary64_zero x Hx),
            ?(binary64_neg y Hy), ?(binary64_pos y Hy), ?(binary64_zero y Hy);
    try lra.
  - assert (nearest (- y) <= nearest (- x))%Q by (apply nearest_mono; lra). lra.
  - assert (0 <= nearest (- x))%Q by (apply nearest_nonneg; lra).
    assert (0 <= nearest y)%Q by (apply nearest_nonneg; lra). lra.
  - assert (0 <= nearest (- x))%Q by (apply nearest_nonneg; lra). lra.
  - apply nearest_mono; lra.
  - apply nearest_nonneg; lra.
Qed.

Lemma float_mul_mono_l (x y c : Qc) :
  (of_int 0 <= c)%Qc -> (x <= y)%Qc -> (float_mul x c <= float_mul y c)%Qc.
Proof.
  intros Hc H. unfold float_mul. apply binary64_mono.
  now apply Qcmult_le_compat_r.
Qed.

(** ** The threshold of the annual discount *)

Lemma savings_mono (x y : Qc) :
  (x <= y)%Qc ->
  (float_mul (float_mul x (of_int 12)) (binary64 (Q2Qc (15 # 100)))
   <= float_mul (float_mul y (of_int 12)) (binary64 (Q2Qc (15 # 100))))%Qc.
Proof.
  intros H. apply float_mul_mono_l; [vm_compute; discriminate|].
  apply float_mul_mono_l; [vm_compute; discriminate|exact H].
Qed.

Lemma round_lt_half (x : Qc) (n : Z) : (x < inject_Z n + (1 # 2))%Q -> round x <= n.
Proof.
  intros H. pose proof (round_bounds x) as [Hlo _].
  assert (Hlt : (inject_Z (round x) < inject_Z (n + 1))%Q).
  { rewrite inject_Z_plus. change (inject_Z 1) with 1%Q. lra. }
  rewrite <- Zlt_Qlt in Hlt. lia.
Qed.

(** Between the double 11.111111111111112 and the midpoint to the next
    double, a cost rounds down to that double. *)
Lemma nearest_below (c : Q) :
  (6254999482459023 # 562949953421312 < c)%Q ->
  (c < 12509998964918047 # 1125899906842624)%Q ->
  (nearest c <= 6254999482459023 # 562949953421312)%Q.
Proof.
  intros Hlo Hhi.
  assert (He : exponent c = 3).
  { apply exponent_unique.
    - change (pow2 3) with (8 # 1). lra.
    - change (pow2 (3 + 1)) with (16 # 1). lra. }
  unfold nearest, ulp. rewrite He.
  change (pow2 (Z.max (3 - 52) (-1074))) with (/ inject_Z 562949953421312)%Q.
  assert (Hr : round (Q2Qc (c / / inject_Z 562949953421312)%Q) <= 6254999482459023).
  { apply round_lt_half. rewrite Q2Qc_this.
    unfold Qdiv. rewrite Qinv_involutive.
    unfold inject_Z. lra. }
  rewrite Zle_Qle in Hr. unfold inject_Z in *.
  set (r := round _) in *.
  assert (E : (/ (562949953421312 # 1) == 1 # 562949953421312)%Q) by reflexivity.
  rewrite E. lra.
Qed.

Lemma binary64_below (c : Qc) :
  (c < Q2Qc (12509998964918047 # 1125899906842624))%Qc ->
  (binary64 c <= Q2Qc (6254999482459023 # 562949953421312))%Qc.
Proof.
  intros H.
  destruct (Qclt_le_dec (Q2Qc (6254999482459023 # 562949953421312)) c) as [Hlo|Hle].
  - unfold Qclt, Qcle in *. rewrite Q2Qc_this in *.
    rewrite binary64_pos by lra.
    apply nearest_below; assumption.
  - apply binary64_mono in Hle.
    assert (E : binary64 (Q2Qc (6254999482459023 # 562949953421312))
                = Q2Qc (6254999482459023 # 562949953421312)).
    { apply Qc_is_canon. vm_compute. reflexivity. }
    now rewrite E in Hle.
Qed.

Opaque binary64.

Lemma savings_threshold (s : Subscription) :
  (of_int 20 < potential_annual_savings s)%Qc
  <-> (Q2Qc (12509998964918047 # 1125899906842624) <= monthly_cost s)%Qc.
Proof.
  unfold potential_annual_savings. split.
  - intros H.
    destruct (Qclt_le_dec (monthly_cost s) (Q2Qc (12509998964918047 # 1125899906842624)))
      as [Hlt|Hge]; [|exact Hge].
    exfalso. apply binary64_below, savings_mono in Hlt.
    assert (E : (float_mul (float_mul (Q2Qc (6254999482459023 # 562949953421312))
                                      (of_int 12))
                           (binary64 (Q2Qc (15 # 100)))
                 <= of_int 20)%Qc)
      by (vm_compute; discriminate).
    apply (Qclt_not_le _ _ H). exact (Qcle_trans _ _ _ Hlt E).
  - intros H. apply binary64_mono, savings_mono in H.
    refine (Qclt_le_trans _ _ _ _ H). vm_compute. reflexivity.
Qed.

(** X10. A subscription of frequency "monthly", of a monthly cost in the
    range of the doubles, gets an annual_discount opportunity if and only if
    its monthly cost is at least 12509998964918047 / 2^50
    (11.1111111111111129...), the midpoint between the doubles
    11.111111111111112 and 11.111111111111114: that is, if and only if it
    reads as a double of 11.111111111111114 or more. The test
    [monthly_cost * 12 * 0.15 > 20] on doubles is not the test
    [monthly_cost > 100/9]. *)
Theorem annual_discount_threshold (subs : list Subscription) (s : Subscription) :
  In s subs ->
  frequency s = "monthly" ->
  in_range (monthly_cost s) ->
  ((exists savings recommendation,
       In (annual_discount (sub_description s) (monthly_cost s) savings recommendation)
          (savings_opportunities subs))
   <-> (Q2Qc (12509998964918047 # 1125899906842624) <= monthly_cost s)%Qc).
Proof.
  intros Hs Hf _. rewrite savings_opportunities_parts. split.
  - intros [savings [recommendation Hin]].
    apply in_app_or in Hin. destruct Hin as [Hin|Hin].
    + apply in_map_iff in Hin. destruct Hin as [c [Hc _]]. discriminate Hc.
    + apply in_flat_map in Hin. destruct Hin as [s' [_ Ho]].
      apply annual_opportunity_In in Ho. destruct Ho as [Hgt Ho].
      injection Ho as _ Hcost _ _.
      apply savings_threshold in Hgt. now rewrite Hcost.
  - intros Hgt. apply savings_threshold in Hgt.
    eexists. eexists. apply in_or_app. right.
    apply in_flat_map. exists s. split.
    + apply filter_In. split; [exact Hs|]. now apply String.eqb_eq.
    + apply annual_opportunity_In. split; [exact Hgt|reflexivity].
Qed.

Lemma annual_discount_threshold_witness :
  (exists savings recommendation,
      In (annual_discount "NETFLIX.COM" (Q2Qc (50 # 1)) savings recommendation)
         (savings_opportunities sample_table))
  /\ ~ (exists savings recommendation,
           In (annual_discount "BACKUP" (Q2Qc (11111111111111112 # 1000000000000000))
                 savings recommendation)
              (savings_opportunities [threshold_subscription])).
Proof.
  split.
  - apply (annual_discount_threshold sample_table
             (subscription "NETFLIX.COM" "streaming" (50 # 1) "monthly")).
    + simpl. auto.
    + reflexivity.
    + split; vm_compute; reflexivity.
    + vm_compute. discriminate.
  - intros H.
    apply (annual_discount_threshold [threshold_subscription] threshold_subscription) in H.
    + vm_compute in H. apply H. reflexivity.
    + simpl. auto.
    + reflexivity.
    + split; vm_compute; reflexivity.
Defined.

(** * The cancellation service *)

Lemma contains_true (kw s : string) : contains kw s = true <-> substring kw s.
Proof. apply contains_spec. Qed.

Lemma contains_false (kw s : string) : contains kw s = false <-> ~ substring kw s.
Proof.
  rewrite <- contains_true. destruct (contains kw s); split; congruence.
Qed.

Ltac by_service :=
  repeat match goal with
         | |- context [contains ?kw ?s] => destruct (contains kw s) eqn:?
         end.

(** X14. [get_cancellation_methods] never returns an empty list: whatever
    the name, it returns some of "Email", "Phone" and "Online Form", and
    "Online Form" always. *)
Theorem cancellation_methods_known (name : string) :
  get_cancellation_methods name <> []
  /\ (forall m, In m (get_cancellation_methods name) ->
                m = "Email" \/ m = "Phone" \/ m = "Online Form")
  /\ In "Online Form" (get_cancellation_methods name).
Proof.
  unfold get_cancellation_methods, cancellation_info.
  cbn [first_methods methods].
  by_service; (split; [discriminate|]); (split; [|simpl; auto 6]);
    intros m Hm; simpl in Hm; intuition (subst; auto).
Qed.

(** X15. [get_phone_number] returns a number only for a name that holds
    "netflix", case ignored; for a name that holds no service of the table,
    [get_cancellation_methods] offers "Phone" all the same and the number is
    the advice to check the company's website. *)
Theorem phone_number_only_netflix (name : string) :
  (substring "netflix" (lower name) -> get_phone_number name = "1-866-579-7172")
  /\ (~ substring "netflix" (lower name) -> get_phone_number name = no_phone_number)
  /\ ((forall e, In e cancellation_info -> ~ substring (fst e) (lower name)) ->
      In "Phone" (get_cancellation_methods name)
      /\ get_phone_number name = no_phone_number).
Proof.
  unfold get_phone_number, get_cancellation_methods, cancellation_info, no_phone_number.
  cbn [first_value first_methods phone methods].
  split; [|split].
  - intros H. apply contains_true in H. now rewrite H.
  - intros H. apply contains_false in H. rewrite H. by_service; reflexivity.
  - intros H.
    assert (Hno : forall kw, In kw (map fst cancellation_info) ->
                             contains kw (lower name) = false).
    { intros kw Hkw. apply in_map_iff in Hkw. destruct Hkw as [e [<- He]].
      apply contains_false, H, He. }
    rewrite (Hno "netflix"), (Hno "spotify"), (Hno "hulu"), (Hno "amazon prime")
      by (simpl; auto 6).
    simpl. tauto.
Qed.

Lemma phone_number_only_netflix_witness :
  get_phone_number "Netflix Premium" = "1-866-579-7172"
  /\ get_phone_number "GYM MEMBERSHIP" = no_phone_number
  /\ In "Phone" (get_cancellation_methods "GYM MEMBERSHIP").
Proof.
  destruct (phone_number_only_netflix "Netflix Premium") as [Hyes _].
  destruct (phone_number_only_netflix "GYM MEMBERSHIP") as [_ [_ Hnone]].
  split; [|split].
  - apply Hyes, contains_true. vm_compute. reflexivity.
  - apply Hnone. intros e He. apply contains_false.
    repeat (destruct He as [<-|He]; [vm_compute; reflexivity|]). destruct He.
  - apply Hnone. intros e He. apply contains_false.
    repeat (destruct He as [<-|He]; [vm_compute; reflexivity|]). destruct He.
Defined.

Lemma list_ascii_of_string_app (s s' : string) :
  list_ascii_of_string (s ++ s')%string
  = list_ascii_of_string s ++ list_ascii_of_string s'.
Proof. induction s as [|c s IH]; simpl; [reflexivity|now rewrite IH]. Qed.

Lemma replace_char_removes (old new : ascii) (s : string) :
  new <> old -> ~ In old (list_ascii_of_string (replace_char old new s)).
Proof.
  intros Hne. induction s as [|c s IH]; simpl; [tauto|].
  intros [H|H]; [|auto].
  destruct (Ascii.eqb_spec c old); congruence.
Qed.

(** X16. The URL [get_cancellation_url] returns holds no space, whatever the
    name: it is an address of the table, or the search address with every
    space of the name replaced by "+". *)
Theorem cancellation_url_no_space (name : string) :
  ~ In " "%char (list_ascii_of_string (get_cancellation_url name)).
Proof.
  unfold get_cancellation_url, cancellation_info.
  cbn [first_value url].
  by_service; try (vm_compute; intuition discriminate).
  rewrite !list_ascii_of_string_app, !in_app_iff.
  intros [H|[H|H]].
  - revert H. vm_compute. intuition discriminate.
  - revert H. apply replace_char_removes. discriminate.
  - revert H. vm_compute. intuition discriminate.
Qed.

Lemma first_methods_match (before after : list (string * ServiceInfo))
      (service : string) (info : ServiceInfo) (name : string) :
  contains service name = true ->
  (forall e, In e before -> contains (fst e) name = false) ->
  first_methods (before ++ (service, info) :: after) name = Some (methods info).
Proof.
  intros Hm. induction before as [|[s i] before IH]; simpl; intros Hno.
  - now rewrite Hm.
  - pose proof (Hno (s, i) (or_introl eq_refl)) as Hs. simpl in Hs. rewrite Hs.
    apply IH. intros e He. apply Hno. now right.
Qed.

Lemma first_value_match (key : ServiceInfo -> option string)
      (before after : list (string * ServiceInfo))
      (service : string) (info : ServiceInfo) (name v : string) :
  contains service name = true ->
  key info = Some v ->
  (forall e, In e before -> contains (fst e) name = false) ->
  first_value key (before ++ (service, info) :: after) name = Some v.
Proof.
  intros Hm Hv. induction before as [|[s i] before IH]; simpl; intros Hno.
  - now rewrite Hm, Hv.
  - pose proof (Hno (s, i) (or_introl eq_refl)) as Hs. simpl in Hs. rewrite Hs.
    apply IH. intros e He. apply Hno. now right.
Qed.

(** X17. When a service of the table occurs in the name, case ignored,
    [get_cancellation_methods] and [get_cancellation_url] answer from the
    same entry, the first such service in the order of the table: its
    methods and its address. *)
Theorem cancellation_first_service (name service : string) (info : ServiceInfo)
        (before after : list (string * ServiceInfo)) :
  cancellation_info = before ++ (service, info) :: after ->
  substring service (lower name) ->
  (forall e, In e before -> ~ substring (fst e) (lower name)) ->
  get_cancellation_methods name = methods info
  /\ Some (get_cancellation_url name) = url info.
Proof.
  intros Htable Hm Hno.
  apply contains_true in Hm.
  assert (Hno' : forall e, In e before -> contains (fst e) (lower name) = false)
    by (intros e He; apply contains_false, Hno, He).
  assert (Hurl : exists u, url info = Some u).
  { assert (Hin : In (service, info) cancellation_info)
      by (rewrite Htable; apply in_or_app; right; now left).
    simpl in Hin.
    repeat (destruct Hin as [Hin|Hin]; [injection Hin as _ <-; simpl; eauto|]).
    destruct Hin. }
  destruct Hurl as [u Hu].
  unfold get_cancellation_methods, get_cancellation_url. rewrite Htable.
  rewrite (first_methods_match _ _ _ _ _ Hm Hno').
  rewrite (first_value_match url _ _ _ _ _ u Hm Hu Hno').
  auto.
Qed.

Lemma cancellation_first_service_witness :
  get_cancellation_methods "Hulu + Spotify bundle" = ["Online Form"]
  /\ get_cancellation_url "Hulu + Spotify bundle"
     = "https://www.spotify.com/account/subscription/cancel/".
Proof.
  destruct (cancellation_first_service "Hulu + Spotify bundle" "spotify"
              {| methods := ["Online Form"];
                 url := Some "https://www.spotify.com/account/subscription/cancel/";
                 phone := None |}
              (firstn 1 cancellation_info) (skipn 2 cancellation_info))
    as [Hmethods Hurl].
  - reflexivity.
  - apply contains_true. vm_compute. reflexivity.
  - intros e [<-|[]]. apply contains_false. vm_compute. reflexivity.
  - split; [exact Hmethods|].
    exact (f_equal (fun o => match o with Some u => u | None => EmptyString end) Hurl).
Defined.

(** * The column names of the CSV parser *)

Lemma string_app_assoc (a b c : string) : ((a ++ b) ++ c = a ++ (b ++ c))%string.
Proof. induction a as [|x a IH]; simpl; [reflexivity|now rewrite IH]. Qed.

Lemma substring_trans (a b s : string) : substring a b -> substring b s -> substring a s.
Proof.
  intros [p [q ->]] [pre [post ->]].
  exists (pre ++ p)%string, (q ++ post)%string.
  now rewrite !string_app_assoc.
Qed.

Lemma contains_longer (a b s : string) :
  contains a b = true -> contains b s = true -> contains a s = true.
Proof. rewrite !contains_true. apply substring_trans. Qed.

(** What the loop and the renaming make of one column name. *)
Lemma new_columns_None (columns : list string) (col : string) :
  first_category column_mapping (lower col) = None ->
  dict_get (new_columns columns) col = None.
Proof.
  intros Hnone. induction columns as [|c columns IH]; [reflexivity|].
  cbn [new_columns]. cbv zeta.
  destruct (first_category column_mapping (lower c)) as [standard|] eqn:E; [|exact IH].
  cbn [dict_get]. destruct (String.eqb_spec c col) as [->|_]; [congruence|exact IH].
Qed.

Lemma new_columns_get (columns : list string) (col : string) :
  In col columns ->
  dict_get (new_columns columns) col = first_category column_mapping (lower col).
Proof.
  induction columns as [|c columns IH]; [contradiction|]. intros Hin.
  cbn [new_columns]. cbv zeta.
  destruct (String.eqb_spec c col) as [->|Hne].
  - destruct (first_category column_mapping (lower col)) as [standard|] eqn:E.
    + cbn [dict_get]. now rewrite String.eqb_refl.
    + now apply new_columns_None.
  - destruct Hin as [Hin|Hin]; [contradiction|].
    destruct (first_category column_mapping (lower c)) as [standard|] eqn:E; [|auto].
    cbn [dict_get]. destruct (String.eqb_spec c col); [contradiction|auto].
Qed.

Lemma new_columns_nil (columns : list string) (col : string) :
  new_columns columns = [] -> In col columns ->
  first_category column_mapping (lower col) = None.
Proof.
  intros H Hin. rewrite <- (new_columns_get columns col Hin), H. reflexivity.
Qed.

Lemma effective_name_spec (col : string) :
  effective_name col
  = match first_category column_mapping (lower col) with
    | Some standard => standard
    | None => col
    end.
Proof.
  unfold effective_name, column_mapping. cbv zeta.
  cbn [first_category any existsb].
  generalize (lower col). intros s.
  pose proof (contains_longer "date" "transaction date" s eq_refl) as H1.
  pose proof (contains_longer "date" "trans date" s eq_refl) as H2.
  pose proof (contains_longer "date" "posted date" s eq_refl) as H3.
  pose proof (contains_longer "amount" "transaction amount" s eq_refl) as H4.
  destruct (contains "date" s).
  - reflexivity.
  - destruct (contains "transaction date" s); [discriminate (H1 eq_refl)|].
    destruct (contains "trans date" s); [discriminate (H2 eq_refl)|].
    destruct (contains "posted date" s); [discriminate (H3 eq_refl)|].
    cbn [orb].
    destruct (contains "description" s || (contains "transaction" s
              || (contains "details" s || (contains "merchant" s
              || (contains "name" s || false))))); [reflexivity|].
    destruct (contains "amount" s); [reflexivity|].
    destruct (contains "transaction amount" s); [discriminate (H4 eq_refl)|].
    destruct (contains "debit" s), (contains "credit" s); reflexivity.
Qed.

Lemma detect_columns_map (columns : list string) :
  _detect_columns columns = map effective_name columns.
Proof.
  unfold _detect_columns.
  destruct (new_columns columns) as [|e d] eqn:E.
  - rewrite <- (map_id columns) at 1. apply map_ext_in. intros col Hin.
    now rewrite effective_name_spec, (new_columns_nil columns col E Hin).
  - rewrite <- E. unfold rename. apply map_ext_in. intros col Hin.
    now rewrite effective_name_spec, (new_columns_get columns col Hin).
Qed.

(** X18. [_detect_columns] renames each column on its own, and three tests
    on the lower-cased name decide: the name becomes "date" when it holds
    "date"; else "description" when it holds "description", "transaction",
    "details", "merchant" or "name"; else "amount" when it holds "amount",
    "debit" or "credit"; else it stays. The variations "transaction date",
    "trans date", "posted date" and "transaction amount" change nothing. *)
Theorem detect_columns_effective (columns : list string) :
  _detect_columns columns = map effective_name columns.
Proof. apply detect_columns_map. Qed.

(** X19. A column whose name holds "transaction amount", case ignored, is
    never renamed "amount": it becomes "date" when the name holds "date" and
    "description" otherwise. *)
Theorem transaction_amount_column (columns : list string) (i : nat) (col : string) :
  nth_error columns i = Some col ->
  substring "transaction amount" (lower col) ->
  nth_error (_detect_columns columns) i
  = Some (if contains "date" (lower col) then "date" else "description").
Proof.
  intros Hnth Hsub. rewrite detect_columns_map, nth_error_map, Hnth. simpl.
  f_equal. unfold effective_name. cbv zeta.
  destruct (contains "date" (lower col)); [reflexivity|].
  apply contains_true in Hsub.
  assert (Ht : contains "transaction" (lower col) = true)
    by (apply (contains_longer _ "transaction amount"); [reflexivity|exact Hsub]).
  cbn [any existsb]. rewrite Ht.
  destruct (contains "description" (lower col)); reflexivity.
Qed.

Lemma transaction_amount_column_witness :
  nth_error (_detect_columns ["Posted"; "Transaction Amount"; "Payee"]) 1
  = Some "description".
Proof.
  apply (transaction_amount_column ["Posted"; "Transaction Amount"; "Payee"] 1
           "Transaction Amount").
  - reflexivity.
  - apply contains_true. vm_compute. reflexivity.
Defined.

Lemma effective_name_idempotent (col : string) :
  effective_name (effective_name col) = effective_name col.
Proof.
  assert (H : effective_name col = "date" \/ effective_name col = "description"
              \/ effective_name col = "amount" \/ effective_name col = col).
  { unfold effective_name. cbv zeta.
    destruct (contains "date" (lower col)); [auto|].
    destruct (any _ _); [auto|].
    destruct (any _ _); auto. }
  destruct H as [H|[H|[H|H]]]; rewrite H; try reflexivity. exact H.
Qed.

(** X20. [_detect_columns] is idempotent: the names it returns are left as
    they are by a second run. *)
Theorem detect_columns_idempotent (columns : list string) :
  _detect_columns (_detect_columns columns) = _detect_columns columns.
Proof.
  rewrite !detect_columns_map, map_map. apply map_ext.
  apply effective_name_idempotent.
Qed.

(** * Account numbers *)

Lemma substring_tail (s : string) (n m : nat) :
  String.length s = (n + m)%nat ->
  exists pre, s = (pre ++ String.substring n m s)%string
              /\ String.length (String.substring n m s) = m.
Proof.
  revert s m; induction n as [|n IH]; intros s m Hlen.
  - exists ""%string. simpl in Hlen. revert m Hlen.
    induction s as [|c s IHs]; intros [|m] Hlen; simpl in *; try discriminate; auto.
    destruct (IHs m) as [Heq Hl]; [lia|]. simpl in Heq.
    split; [now rewrite <- Heq|now rewrite Hl].
  - destruct s as [|c s]; [discriminate|]. simpl in Hlen.
    destruct (IH s m) as [pre [Heq Hl]]; [lia|].
    exists (String c pre). simpl. split; [now rewrite <- Heq|exact Hl].
Qed.

(** X21. Of an account number of four characters or more, as text or as an
    integer, [anonymize_account_number] keeps the last four characters and
    nothing else: it returns "XXXX-" followed by them; and masking the
    result again changes nothing. *)
Theorem account_number_masked (sha256_hexdigest : string -> string) (v : AccountValue) :
  is_blank v = false ->
  (4 <= String.length (str_of_account v))%nat ->
  exists pre last4,
    str_of_account v = (pre ++ last4)%string
    /\ String.length last4 = 4%nat
    /\ anonymize_account_number sha256_hexdigest v = AccountText ("XXXX-" ++ last4)
    /\ anonymize_account_number sha256_hexdigest
         (anonymize_account_number sha256_hexdigest v)
       = anonymize_account_number sha256_hexdigest v.
Proof.
  intros Hblank Hlen.
  destruct (substring_tail (str_of_account v) (String.length (str_of_account v) - 4) 4)
    as [pre [Heq Hl]]; [lia|].
  exists pre, (String.substring (String.length (str_of_account v) - 4) 4 (str_of_account v)).
  split; [exact Heq|]. split; [exact Hl|].
  assert (Hmask : anonymize_account_number sha256_hexdigest v
                  = AccountText
                      ("XXXX-" ++ String.substring (String.length (str_of_account v) - 4) 4
                                            (str_of_account v))).
  { unfold anonymize_account_number. rewrite Hblank.
    apply Nat.leb_le in Hlen. now rewrite Hlen. }
  split; [exact Hmask|].
  rewrite Hmask.
  destruct (String.substring _ 4 _) as [|a [|b [|c [|d [|e t]]]]]; try discriminate.
  reflexivity.
Qed.

Lemma account_number_masked_witness :
  anonymize_account_number (fun _ => EmptyString) (AccountInt 123456789)
  = AccountText "XXXX-6789"
  /\ anonymize_account_number (fun _ => EmptyString) (AccountText "XXXX-6789")
     = AccountText "XXXX-6789".
Proof.
  destruct (account_number_masked (fun _ => EmptyString) (AccountInt 123456789))
    as [pre [last4 [_ [_ [Hmask Hagain]]]]].
  - reflexivity.
  - vm_compute. lia.
  - split; [reflexivity|]. exact Hagain.
Defined.
